(** * The fission executor: creation coordinator, environment resolver,
      backend dispatch

    A shallow embedding of [executor/executor.go].

    The methods [getFunctionEnv] and [createServiceForFunction] are
    state-passing functions in a small state-and-error monad.  The
    admission goroutine [serveCreateFuncServices] and the goroutines it
    launches are an interleaving semantics: a state, events, and an
    executable [step]; one step is one statement of a goroutine, or one
    iteration of the admission loop.

    The collaborators that live in other packages (metadata client, pool
    manager, function-service cache, [crd.CacheKey]) are an interface,
    [Collaborators], over an abstract collaborator state that may also
    change on its own between steps.

    What the model leaves out: [log.Printf]; the interleaving of other
    goroutines with the collaborator calls inside one method call (a call
    of [createServiceForFunction] or [GetByFunction] is one step).  A send
    on a request's channel goes through, the caller being blocked on the
    receive, and collaborator calls return.

    [fsCreateWg] is a plain Go map.  The admission loop reads and writes
    it (lines 81, 87) and every creation goroutine deletes from it (line
    97), with nothing to order these accesses.  [step] takes each access
    as one step: its runs are the executions in which no access to the map
    falls inside another.  [pstep] is the process with what the Go runtime
    does otherwise: the [delete] takes two steps, entering and leaving,
    and a map access that comes between them aborts the process. *)

From stdpp Require Import base option list gmap strings pretty.
From Stdlib Require Import ZArith Lia.

(** ** Values of the Go program *)

(** [metav1.ObjectMeta], the fields the executor and its keys read. *)
Record ObjectMeta := mkMeta {
  Name : string;
  Namespace : string;
  UID : string;
  ResourceVersion : string;
}.

(** A Go [error] value; only its identity matters to the executor. *)
Definition error := string.

(** [crd.EnvironmentReference]: what [f.Spec.Environment] holds. *)
Record EnvironmentReference := mkEnvRef {
  ref_Namespace : string;
  ref_Name : string;
}.

(** [crd.Function], reduced to the fields [getFunctionEnv] reads. *)
Record Function := mkFunction {
  fn_Metadata : ObjectMeta;
  fn_Spec_Environment : EnvironmentReference;
}.

(** [crd.Environment]. *)
Record Environment := mkEnvironment {
  env_Metadata : ObjectMeta;
  env_Image : string;
}.

(** [fscache.FuncSvc]: the service handle; opaque to the executor. *)
Record FuncSvc := mkFuncSvc {
  svc_Function : ObjectMeta;
  svc_Address : string;
}.

(** [poolmgr.GenericPool], identified by the environment it serves. *)
Record GenericPool := mkPool {
  pool_env : Environment;
}.

(** [createFuncServiceResponse]: both fields are Go pointers/interfaces and
    may be nil independently. *)
Record createFuncServiceResponse := mkResponse {
  funcSvc : option FuncSvc;
  err : option error;
}.

(** [createFuncServiceRequest]; [respChan] is the address of the channel the
    caller made for this request. *)
Record createFuncServiceRequest := mkRequest {
  funcMeta : ObjectMeta;
  respChan : nat;
}.

(** Go's [time.Duration] counts nanoseconds. *)
Definition Second : Z := 1000000000%Z.

(** ** The time-to-live cache *)

(** Modelled from the spec: the generic cache of package [cache], whose code
    is not part of the sources at hand.  An entry carries the time of its
    insertion and is visible to [Get] until the fixed expiry, measured from
    insertion, has elapsed; [Set] writes the entry with the current time. *)
Record Cache (V : Type) := mkCache {
  ctimeExpiry : Z;
  atimeExpiry : Z;
  entries : gmap string (V * Z);
}.
Arguments mkCache {V} _ _ _.
Arguments ctimeExpiry {V} _.
Arguments atimeExpiry {V} _.
Arguments entries {V} _.

Definition MakeCache {V : Type} (ctime atime : Z) : Cache V :=
  mkCache ctime atime ∅.

Definition Cache_Get {V : Type} (c : Cache V) (key : string) (now : Z)
  : V + error :=
  match entries c !! key with
  | Some (v, ctime) =>
      if (now <? ctime + ctimeExpiry c)%Z then inl v else inr "not found"%string
  | None => inr "not found"%string
  end.

Definition Cache_Set {V : Type} (c : Cache V) (key : string) (v : V) (now : Z)
  : Cache V :=
  mkCache (ctimeExpiry c) (atimeExpiry c) (<[key := (v, now)]> (entries c)).

(** ** Collaborators *)

(** The operations of the other packages the executor calls, over the state
    [X] of everything outside the executor (cluster metadata, pools, the
    function-service cache).  Reads take the state; the pool manager's
    operations also change it. *)
Class Collaborators (X : Type) := {
  (** [crd.CacheKey] *)
  CacheKey : ObjectMeta → string;
  (** [fissionClient.Functions(ns).Get(name)] *)
  Functions_Get : X → string → string → Function + error;
  (** [fissionClient.Environments(ns).Get(name)] *)
  Environments_Get : X → string → string → Environment + error;
  (** [gpm.GetPool(env)] *)
  gpm_GetPool : X → Environment → (GenericPool + error) * X;
  (** [pool.GetFuncSvc(m)]; on success it also adds to the service cache *)
  pool_GetFuncSvc : X → GenericPool → ObjectMeta → (FuncSvc + error) * X;
  (** [fsCache.GetByFunction(m)] *)
  fsCache_GetByFunction : X → ObjectMeta → FuncSvc + error;
}.

(** A record of every call made to a collaborator, in order.  It is not
    state of the program: it is kept so that theorems can count calls. *)
Inductive Call :=
  | CallFunctionsGet (ns name : string)
  | CallEnvironmentsGet (ns name : string)
  | CallGetPool (env : Environment)
  | CallGetFuncSvc (pool : GenericPool) (m : ObjectMeta)
  | CallGetByFunction (m : ObjectMeta).

(** ** Goroutines launched by the admission loop *)

(** Where the goroutine of lines 91-99 stands: before the statement named. *)
Inductive CreatePc :=
  | AtCreate                                  (* line 92 *)
  | AtSend (resp : createFuncServiceResponse) (* line 93 *)
  | AtDelete                                  (* line 97 *)
  | AtDone                                    (* line 98 *)
  | CreateExited.

(** Where the goroutine of lines 102-112 stands. *)
Inductive WaitPc :=
  | AtWait                                        (* line 104 *)
  | AtGetByFunction                               (* line 107 *)
  | AtSendWaited (resp : createFuncServiceResponse) (* line 108 *)
  | WaitExited.

(** A goroutine with the variables its closure captured: the request and
    the address of the [sync.WaitGroup] ([wg] of line 85 for the first
    kind, [wg] of line 81 for the second). *)
Inductive Goroutine :=
  | GoCreate (req : createFuncServiceRequest) (wg : nat) (pc : CreatePc)
  | GoWait (req : createFuncServiceRequest) (wg : nat) (pc : WaitPc).

Definition goReq (g : Goroutine) : createFuncServiceRequest :=
  match g with GoCreate req _ _ | GoWait req _ _ => req end.

Definition goWg (g : Goroutine) : nat :=
  match g with GoCreate _ wg _ | GoWait _ wg _ => wg end.

Definition exited (g : Goroutine) : bool :=
  match g with
  | GoCreate _ _ CreateExited | GoWait _ _ WaitExited => true
  | _ => false
  end.

(** What a Go function of result type [(A, error)] returns. *)
Inductive res (A : Type) :=
  | Ok (a : A)
  | Err (e : error).
Arguments Ok {A} _.
Arguments Err {A} _.

Definition res_of_sum {A} (r : A + error) : res A :=
  match r with inl a => Ok a | inr e => Err e end.

(** The response a goroutine builds from a [(fsvc, err)] pair. *)
Definition response {A} (inj : A → option FuncSvc) (r : res A)
  : createFuncServiceResponse :=
  match r with
  | Ok a => mkResponse (inj a) None
  | Err e => mkResponse None (Some e)
  end.

(** ** Views of calls and goroutines used to state properties *)

(** Which collaborator a logged call went to. *)
Definition isMetadataCall (c : Call) : bool :=
  match c with
  | CallFunctionsGet _ _ | CallEnvironmentsGet _ _ => true
  | _ => false
  end.
Definition isFunctionsGet (c : Call) : bool :=
  match c with CallFunctionsGet _ _ => true | _ => false end.
Definition isEnvironmentsGet (c : Call) : bool :=
  match c with CallEnvironmentsGet _ _ => true | _ => false end.
Definition isGetPool (c : Call) : bool :=
  match c with CallGetPool _ => true | _ => false end.
Definition isGetFuncSvc (c : Call) : bool :=
  match c with CallGetFuncSvc _ _ => true | _ => false end.
Definition isGetByFunction (c : Call) : bool :=
  match c with CallGetByFunction _ => true | _ => false end.

(** How many elements of a list satisfy a test. *)
Definition countIf {A} (P : A → bool) (l : list A) : nat :=
  sum_list_with (λ a, if P a then 1 else 0) l.

(** The creation goroutine has made its [createServiceForFunction] call. *)
Definition pastCreate (g : Goroutine) : bool :=
  match g with
  | GoCreate _ _ AtCreate | GoWait _ _ _ => false
  | GoCreate _ _ _ => true
  end.

(** The waiting goroutine has passed [wg.Wait()]. *)
Definition pastWait (g : Goroutine) : bool :=
  match g with
  | GoWait _ _ AtWait | GoCreate _ _ _ => false
  | GoWait _ _ _ => true
  end.

(** The waiting goroutine has made its [GetByFunction] call. *)
Definition pastLookup (g : Goroutine) : bool :=
  match g with
  | GoWait _ _ (AtSendWaited _ | WaitExited) => true
  | _ => false
  end.

(** ** State *)

Section Executor.
Context {X : Type} `{!Collaborators X}.

(** The [Executor] struct together with the part of the process and of the
    world its methods touch. *)
Record State := mkState {
  now : Z;                          (* wall clock, nanoseconds *)
  environ : gmap string string;     (* process environment, [os.Getenv] *)
  ext : X;                          (* gpm, fissionClient, fsCache *)
  calls : list Call;                (* collaborator calls so far *)
  functionEnv : Cache Environment;  (* executor.functionEnv *)
  fsCreateWg : gmap string nat;     (* executor.fsCreateWg, by address *)
  waitGroups : list nat;            (* counter of each WaitGroup made *)
  goroutines : list Goroutine;      (* goroutines launched, in order *)
  chans : list (list createFuncServiceResponse);
                                    (* values sent on each respChan *)
}.

Definition set_ext (x : X) (s : State) : State :=
  mkState (now s) (environ s) x (calls s) (functionEnv s) (fsCreateWg s)
          (waitGroups s) (goroutines s) (chans s).
Definition log_call (c : Call) (s : State) : State :=
  mkState (now s) (environ s) (ext s) (calls s ++ [c]) (functionEnv s)
          (fsCreateWg s) (waitGroups s) (goroutines s) (chans s).
Definition set_functionEnv (c : Cache Environment) (s : State) : State :=
  mkState (now s) (environ s) (ext s) (calls s) c (fsCreateWg s)
          (waitGroups s) (goroutines s) (chans s).
Definition set_fsCreateWg (t : gmap string nat) (s : State) : State :=
  mkState (now s) (environ s) (ext s) (calls s) (functionEnv s) t
          (waitGroups s) (goroutines s) (chans s).
Definition set_waitGroups (w : list nat) (s : State) : State :=
  mkState (now s) (environ s) (ext s) (calls s) (functionEnv s)
          (fsCreateWg s) w (goroutines s) (chans s).
Definition set_goroutines (g : list Goroutine) (s : State) : State :=
  mkState (now s) (environ s) (ext s) (calls s) (functionEnv s)
          (fsCreateWg s) (waitGroups s) g (chans s).
Definition set_chans (c : list (list createFuncServiceResponse)) (s : State)
  : State :=
  mkState (now s) (environ s) (ext s) (calls s) (functionEnv s)
          (fsCreateWg s) (waitGroups s) (goroutines s) c.
Definition set_world (t : Z) (e : gmap string string) (x : X) (s : State)
  : State :=
  mkState t e x (calls s) (functionEnv s) (fsCreateWg s) (waitGroups s)
          (goroutines s) (chans s).

(** ** A state-and-error monad for the methods *)

Definition M (A : Type) : Type := State → res A * State.

Definition ret {A} (a : A) : M A := λ s, (Ok a, s).
Definition bind {A B} (m : M A) (k : A → M B) : M B :=
  λ s, match m s with
       | (Ok a, s') => k a s'
       | (Err e, s') => (Err e, s')
       end.

Notation "x ←← m ;; k" := (bind m (λ x, k))
  (at level 100, m at next level, right associativity,
   format "x  ←←  m ;;  '/' k").

(** Lift a collaborator's answer. *)
Definition of_sum {A} (r : A + error) : M A := λ s, (res_of_sum r, s).

(** ** Calls to the collaborators, each one logged *)

Definition fissionClient_Functions_Get (ns name : string) : M Function :=
  λ s, of_sum (Functions_Get (ext s) ns name)
              (log_call (CallFunctionsGet ns name) s).

Definition fissionClient_Environments_Get (ns name : string)
  : M Environment :=
  λ s, of_sum (Environments_Get (ext s) ns name)
              (log_call (CallEnvironmentsGet ns name) s).

Definition GetPool (env : Environment) : M GenericPool :=
  λ s, let '(r, x') := gpm_GetPool (ext s) env in
       of_sum r (set_ext x' (log_call (CallGetPool env) s)).

Definition GetFuncSvc (pool : GenericPool) (m : ObjectMeta) : M FuncSvc :=
  λ s, let '(r, x') := pool_GetFuncSvc (ext s) pool m in
       of_sum r (set_ext x' (log_call (CallGetFuncSvc pool m) s)).

Definition GetByFunction (m : ObjectMeta) : M FuncSvc :=
  λ s, of_sum (fsCache_GetByFunction (ext s) m)
              (log_call (CallGetByFunction m) s).

(** [os.Getenv]: the value of the variable, empty when it is not set. *)
Definition Getenv (key : string) (s : State) : string :=
  default ""%string (environ s !! key).

(** ** [getFunctionEnv], lines 145-172 *)

Definition getFunctionEnv (m : ObjectMeta) : M Environment :=
  λ s,
    (* Cached ? *)
    match Cache_Get (functionEnv s) (CacheKey m) (now s) with
    | inl env => (Ok env, s)
    | inr _ =>
        (* Cache miss -- get func from controller *)
        (f ←← fissionClient_Functions_Get (Namespace m) (Name m) ;;
         (* Get env from metadata *)
         env ←← fissionClient_Environments_Get
                  (ref_Namespace (fn_Spec_Environment f))
                  (ref_Name (fn_Spec_Environment f)) ;;
         (* cache for future lookups *)
         λ s', (Ok env,
                set_functionEnv
                  (Cache_Set (functionEnv s') (CacheKey m) env (now s')) s'))
          s
    end.

(** ** [createServiceForFunction], lines 117-143 *)

(** The [default] arm of the switch, lines 130-141. *)
Definition poolBackend (m : ObjectMeta) (env : Environment)
  : M (option FuncSvc) :=
  pool ←← GetPool env ;;
  (* from GenericPool -> get one function container *)
  fsvc ←← GetFuncSvc pool m ;;
  ret (Some fsvc).

(** The switch of lines 125-142: appropriate backend handles the service
    creation. *)
Definition dispatchBackend (m : ObjectMeta) (env : Environment)
  : M (option FuncSvc) :=
  λ s,
    let backend := Getenv "EXECUTOR_BACKEND" s in
    if String.eqb backend "DEPLOY" then (Ok None, s)
    else poolBackend m env s.

Definition createServiceForFunction (m : ObjectMeta) : M (option FuncSvc) :=
  env ←← getFunctionEnv m ;;
  dispatchBackend m env.

(** Resolution calls for one identity, one after the other; before each
    call time has moved to [t] and the collaborators to [x]. *)
Fixpoint resolveRepeatedly (m : ObjectMeta) (ws : list (Z * X)) (s : State)
  : list (res Environment) * State :=
  match ws with
  | [] => ([], s)
  | (t, x) :: ws =>
      let '(r, s1) := getFunctionEnv m (set_world t (environ s) x s) in
      let '(rs, s2) := resolveRepeatedly m ws s1 in
      (r :: rs, s2)
  end.

(** [os.Setenv] *)
Definition Setenv (key value : string) (s : State) : State :=
  set_world (now s) (<[key := value]> (environ s)) (ext s) s.

(** ** The admission loop and its goroutines, lines 75-115 *)

(** [ch <- v].  The caller that made the channel receives from it as soon
    as it has handed in its request, so a send goes through; what was sent
    is recorded per channel.  A channel that was never made blocks. *)
Definition send (ch : nat) (v : createFuncServiceResponse) (s : State)
  : option State :=
  q ← chans s !! ch;
  Some (set_chans (<[ch := q ++ [v]]> (chans s)) s).

Definition goto (g : nat) (next : Goroutine) (s : State) : State :=
  set_goroutines (<[g := next]> (goroutines s)) s.

(** One iteration of the loop of [serveCreateFuncServices] on the request
    received at line 77. *)
Definition serveCreateFuncServices (req : createFuncServiceRequest)
    (s : State) : State :=
  let m := funcMeta req in
  (* Cache miss -- is this first one to request the func? *)
  match fsCreateWg s !! CacheKey m with
  | None =>
      (* create a waitgroup for other requests for the same function *)
      let wg := length (waitGroups s) in
      let s := set_waitGroups (waitGroups s ++ [1]) s in
      let s := set_fsCreateWg (<[CacheKey m := wg]> (fsCreateWg s)) s in
      set_goroutines (goroutines s ++ [GoCreate req wg AtCreate]) s
  | Some wg =>
      (* There's an existing request for this function, wait for it *)
      set_goroutines (goroutines s ++ [GoWait req wg AtWait]) s
  end.

(** The goroutine of lines 91-99, one statement.  The [delete] of line 97
    is one step here, as when nothing else touches the map meanwhile;
    [pstep] below takes it in two. *)
Definition runCreate (g : nat) (req : createFuncServiceRequest) (wg : nat)
    (pc : CreatePc) (s : State) : option State :=
  let m := funcMeta req in
  match pc with
  | AtCreate =>
      let '(r, s') := createServiceForFunction m s in
      Some (goto g (GoCreate req wg (AtSend (response id r))) s')
  | AtSend resp =>
      s' ← send (respChan req) resp s;
      Some (goto g (GoCreate req wg AtDelete) s')
  | AtDelete =>
      Some (goto g (GoCreate req wg AtDone)
              (set_fsCreateWg (delete (CacheKey m) (fsCreateWg s)) s))
  | AtDone =>
      match waitGroups s !! wg with
      | Some (S n) =>
          Some (goto g (GoCreate req wg CreateExited)
                  (set_waitGroups (<[wg := n]> (waitGroups s)) s))
      | _ => None (* negative WaitGroup counter: panic *)
      end
  | CreateExited => None
  end.

(** The goroutine of lines 102-112, one statement; [wg.Wait()] can only be
    passed once the counter is zero. *)
Definition runWait (g : nat) (req : createFuncServiceRequest) (wg : nat)
    (pc : WaitPc) (s : State) : option State :=
  let m := funcMeta req in
  match pc with
  | AtWait =>
      match waitGroups s !! wg with
      | Some O => Some (goto g (GoWait req wg AtGetByFunction) s)
      | _ => None
      end
  | AtGetByFunction =>
      (* get the function service from the cache *)
      let '(r, s') := GetByFunction m s in
      Some (goto g (GoWait req wg (AtSendWaited (response Some r))) s')
  | AtSendWaited resp =>
      s' ← send (respChan req) resp s;
      Some (goto g (GoWait req wg WaitExited) s')
  | WaitExited => None
  end.

(** What can happen next. *)
Inductive Event :=
  (** a caller makes a channel and hands in a request for [m]; the loop
      receives it and runs one iteration *)
  | EvSubmit (m : ObjectMeta)
  (** goroutine [g] executes the statement it stands at *)
  | EvRun (g : nat)
  (** time passes, the process environment is changed, the collaborators
      change state on their own *)
  | EvWorld (t : Z) (e : gmap string string) (x : X).

(** One step of the executor, every access to [fsCreateWg] being one
    step. *)
Definition step (ev : Event) (s : State) : option State :=
  match ev with
  | EvSubmit m =>
      let ch := length (chans s) in
      Some (serveCreateFuncServices (mkRequest m ch)
              (set_chans (chans s ++ [[]]) s))
  | EvRun g =>
      match goroutines s !! g with
      | Some (GoCreate req wg pc) => runCreate g req wg pc s
      | Some (GoWait req wg pc) => runWait g req wg pc s
      | None => None
      end
  | EvWorld t e x =>
      if decide (now s ≤ t)%Z then Some (set_world t e x s) else None
  end.

Fixpoint run (evs : list Event) (s : State) : option State :=
  match evs with
  | [] => Some s
  | ev :: evs => s' ← step ev s; run evs s'
  end.

(** [MakeExecutor], lines 55-67, in a process started at time [t] with
    environment [e] and collaborators in state [x]. *)
Definition MakeExecutor (t : Z) (e : gmap string string) (x : X) : State :=
  mkState t e x [] (MakeCache (10 * Second) 0) ∅ [] [] [].

Definition reachable (s : State) : Prop :=
  ∃ t e x evs, run evs (MakeExecutor t e x) = Some s.

(** ** Measures and views used to state the properties *)

(** Statements a goroutine still has to execute. *)
Definition remaining (g : Goroutine) : nat :=
  match g with
  | GoCreate _ _ AtCreate => 4
  | GoCreate _ _ (AtSend _) => 3
  | GoCreate _ _ AtDelete => 2
  | GoCreate _ _ AtDone => 1
  | GoCreate _ _ CreateExited => 0
  | GoWait _ _ AtWait => 3
  | GoWait _ _ AtGetByFunction => 2
  | GoWait _ _ (AtSendWaited _) => 1
  | GoWait _ _ WaitExited => 0
  end.

Definition work (s : State) : nat := sum_list_with remaining (goroutines s).

(** The goroutine is a creation pipeline for key [k] that has not yet
    executed the [delete] of line 97; it yields its WaitGroup. *)
Definition inFlight (k : string) (g : Goroutine) : option nat :=
  match g with
  | GoCreate req wg (AtCreate | AtSend _ | AtDelete) =>
      if decide (CacheKey (funcMeta req) = k) then Some wg else None
  | _ => None
  end.

(** The goroutine made a WaitGroup; it yields the counter the WaitGroup
    has while the goroutine stands where it does. *)
Definition wgCounter (g : Goroutine) : option nat :=
  match g with
  | GoCreate _ _ CreateExited => Some 0
  | GoCreate _ _ _ => Some 1
  | GoWait _ _ _ => None
  end.

(** What has been sent on the goroutine's channel when it stands where it
    does. *)
Definition hasSent (g : Goroutine) : bool :=
  match g with
  | GoCreate _ _ (AtDelete | AtDone | CreateExited) => true
  | GoWait _ _ WaitExited => true
  | _ => false
  end.

Definition isWait (g : Goroutine) : bool :=
  match g with GoWait _ _ _ => true | GoCreate _ _ _ => false end.

(** The response a goroutine holds and has not sent yet. *)
Definition pendingResp (g : Goroutine) : option createFuncServiceResponse :=
  match g with
  | GoCreate _ _ (AtSend r) | GoWait _ _ (AtSendWaited r) => Some r
  | _ => None
  end.

(** What a lookup in the function-service cache in state [x] makes of a
    response. *)
Definition registryAnswer (x : X) (m : ObjectMeta)
  : createFuncServiceResponse :=
  response Some (res_of_sum (fsCache_GetByFunction x m)).

(** Where the response of a goroutine comes from: a creation goroutine
    answers with the result of its own [createServiceForFunction] call, a
    waiting goroutine with a lookup in the function-service cache. *)
Definition answerOf (g : Goroutine) (resp : createFuncServiceResponse)
  : Prop :=
  if isWait g
  then ∃ x : X, resp = registryAnswer x (funcMeta (goReq g))
  else ∃ s0 : State,
         resp =
           response id (createServiceForFunction (funcMeta (goReq g)) s0).1.

(** The methods leave the coordinator's bookkeeping alone. *)
Definition sameBookkeeping (s s' : State) : Prop :=
  fsCreateWg s' = fsCreateWg s ∧ waitGroups s' = waitGroups s ∧
  goroutines s' = goroutines s ∧ chans s' = chans s.

(** ** Consistency of the bookkeeping *)

(** Channels: one per goroutine, made for its request; it holds one value
    once the goroutine is past its send and none before; what a goroutine
    sends is its own answer ([answerOf]). *)
Record ChansOk (gs : list Goroutine)
    (chs : list (list createFuncServiceResponse)) : Prop := {
  chans_length : length chs = length gs;
  chans_own : ∀ i g, gs !! i = Some g → respChan (goReq g) = i;
  chans_sent : ∀ i g, gs !! i = Some g →
    ∃ q, chs !! i = Some q ∧ length q = if hasSent g then 1 else 0;
  chans_answer : ∀ i g q resp,
    gs !! i = Some g → chs !! i = Some q →
    pendingResp g = Some resp ∨ resp ∈ q → answerOf g resp;
}.

(** WaitGroups: every goroutine holds one that was made; each was made by
    exactly one creation goroutine, and its counter is 1 until that
    goroutine has called [Done], 0 afterwards. *)
Record WaitGroupsOk (gs : list Goroutine) (wgs : list nat) : Prop := {
  wg_bound : ∀ i g, gs !! i = Some g → goWg g < length wgs;
  wg_counter : ∀ i g n,
    gs !! i = Some g → wgCounter g = Some n → wgs !! goWg g = Some n;
  wg_owner : ∀ i j g g',
    gs !! i = Some g → gs !! j = Some g' →
    isWait g = false → isWait g' = false → goWg g = goWg g' → i = j;
  wg_made : ∀ wg, wg < length wgs →
    ∃ i g, gs !! i = Some g ∧ isWait g = false ∧ goWg g = wg;
}.

(** Markers: the table holds [wg] under [k] exactly when a creation
    goroutine for [k], holding [wg], has not yet executed its [delete]. *)
Definition MarkersOk (gs : list Goroutine) (tbl : gmap string nat) : Prop :=
  ∀ k wg, tbl !! k = Some wg ↔ ∃ i g, gs !! i = Some g ∧ inFlight k g = Some wg.

Definition Inv (s : State) : Prop :=
  ChansOk (goroutines s) (chans s) ∧
  WaitGroupsOk (goroutines s) (waitGroups s) ∧
  MarkersOk (goroutines s) (fsCreateWg s).

(** ** Further facts kept over every run *)

(** Every waiting goroutine joined a creation goroutine launched before
    it, for the same key, and holds that one's WaitGroup. *)
Definition JoinedOk (gs : list Goroutine) : Prop :=
  ∀ j g, gs !! j = Some g → isWait g = true →
    ∃ i c, i < j ∧ gs !! i = Some c ∧ isWait c = false ∧
           goWg c = goWg g ∧
           CacheKey (funcMeta (goReq c)) = CacheKey (funcMeta (goReq g)).

(** A waiting goroutine is past [wg.Wait()] only if the counter is zero. *)
Definition ReleasedOk (gs : list Goroutine) (wgs : list nat) : Prop :=
  ∀ j g, gs !! j = Some g → pastWait g = true → wgs !! goWg g = Some 0.

(** The environment cache keeps the expiry it was made with, and no entry
    is dated later than the clock. *)
Definition CacheOk (s : State) : Prop :=
  ctimeExpiry (functionEnv s) = (10 * Second)%Z ∧
  ∀ k v ct, entries (functionEnv s) !! k = Some (v, ct) → (ct ≤ now s)%Z.

(** The collaborator calls made so far, against the goroutines that made
    them. *)
Definition CallsOk (s : State) : Prop :=
  countIf isGetByFunction (calls s) = countIf pastLookup (goroutines s) ∧
  countIf isGetPool (calls s) ≤ countIf pastCreate (goroutines s) ∧
  countIf isFunctionsGet (calls s) ≤ countIf pastCreate (goroutines s) ∧
  countIf isGetFuncSvc (calls s) ≤ countIf isGetPool (calls s) ∧
  countIf isEnvironmentsGet (calls s) ≤ countIf isFunctionsGet (calls s).

(** The statements of the goroutines as a relation: goroutine [i] moves
    from [g] to [g'] and the state from [s] to [s']. *)
Inductive Moves (i : nat) (s : State) :
    Goroutine → Goroutine → State → Prop :=
  | MoveCreate req wg :
      Moves i s (GoCreate req wg AtCreate)
        (GoCreate req wg
           (AtSend (response id
                      (createServiceForFunction (funcMeta req) s).1)))
        (goto i
           (GoCreate req wg
              (AtSend (response id
                         (createServiceForFunction (funcMeta req) s).1)))
           (createServiceForFunction (funcMeta req) s).2)
  | MoveSend req wg r :
      Moves i s (GoCreate req wg (AtSend r)) (GoCreate req wg AtDelete)
        (goto i (GoCreate req wg AtDelete)
           (set_chans (<[i := [r]]> (chans s)) s))
  | MoveDelete req wg :
      Moves i s (GoCreate req wg AtDelete) (GoCreate req wg AtDone)
        (goto i (GoCreate req wg AtDone)
           (set_fsCreateWg
              (delete (CacheKey (funcMeta req)) (fsCreateWg s)) s))
  | MoveDone req wg :
      waitGroups s !! wg = Some 1 →
      Moves i s (GoCreate req wg AtDone) (GoCreate req wg CreateExited)
        (goto i (GoCreate req wg CreateExited)
           (set_waitGroups (<[wg := 0]> (waitGroups s)) s))
  | MoveWait req wg :
      waitGroups s !! wg = Some 0 →
      Moves i s (GoWait req wg AtWait) (GoWait req wg AtGetByFunction)
        (goto i (GoWait req wg AtGetByFunction) s)
  | MoveGet req wg :
      Moves i s (GoWait req wg AtGetByFunction)
        (GoWait req wg
           (AtSendWaited (registryAnswer (ext s) (funcMeta req))))
        (goto i
           (GoWait req wg
              (AtSendWaited (registryAnswer (ext s) (funcMeta req))))
           (log_call (CallGetByFunction (funcMeta req)) s))
  | MoveSendWaited req wg r :
      Moves i s (GoWait req wg (AtSendWaited r)) (GoWait req wg WaitExited)
        (goto i (GoWait req wg WaitExited)
           (set_chans (<[i := [r]]> (chans s)) s)).

(** The event is the receipt of a request. *)
Definition isSubmit (ev : Event) : bool :=
  match ev with EvSubmit _ => true | _ => false end.

(** The goroutine is a creation goroutine. *)
Definition isCreate (g : Goroutine) : bool := negb (isWait g).

(** ** The marker table as a Go map *)

(** A Go map is not safe for concurrent use.  While a write to a map is in
    progress ([mapassign], [mapdelete]) the runtime keeps the map marked,
    and an access that finds the mark throws: "fatal error: concurrent map
    read and map write", "concurrent map writes".  A throw cannot be
    recovered from; the process ends.

    A process is the executor with that mark: [deleting] names the
    creation goroutine that has entered the [delete] of line 97 and not
    left it, [aborted] says that the runtime has thrown.  The lookup and
    the insertion of the admission loop are in one goroutine and stay one
    step, so an access of the loop that falls inside a [delete] shows as
    the lookup of line 81 finding the mark. *)
Record Process := mkProcess {
  exec : State;
  deleting : option nat;
  aborted : bool;
}.

Definition pstep (ev : Event) (p : Process) : option Process :=
  if aborted p then None
  else
    match ev with
    | EvSubmit m =>
        match deleting p with
        | Some _ =>
            (* the lookup of line 81 finds a write in progress; the
               request was taken off [requestChan], its channel exists *)
            Some (mkProcess (set_chans (chans (exec p) ++ [[]]) (exec p))
                    (deleting p) true)
        | None => s' ← step ev (exec p); Some (mkProcess s' None false)
        end
    | EvRun g =>
        match goroutines (exec p) !! g with
        | Some (GoCreate _ _ AtDelete) =>
            match deleting p with
            | None =>
                (* enters the [delete] *)
                Some (mkProcess (exec p) (Some g) false)
            | Some g' =>
                if decide (g' = g)
                then (* leaves it: the entry is gone *)
                  s' ← step ev (exec p); Some (mkProcess s' None false)
                else (* another goroutine is inside *)
                  Some (mkProcess (exec p) (deleting p) true)
            end
        | _ => s' ← step ev (exec p); Some (mkProcess s' (deleting p) false)
        end
    | EvWorld _ _ _ =>
        s' ← step ev (exec p); Some (mkProcess s' (deleting p) false)
    end.

Fixpoint play (evs : list Event) (p : Process) : option Process :=
  match evs with
  | [] => Some p
  | ev :: evs => p' ← pstep ev p; play evs p'
  end.

(** The process after [MakeExecutor]. *)
Definition boot (t : Z) (e : gmap string string) (x : X) : Process :=
  mkProcess (MakeExecutor t e x) None false.

(** The process in executor state [s], alive, no [delete] in progress. *)
Definition live (s : State) : Process := mkProcess s None false.

Definition inDelete (p : Process) : nat :=
  match deleting p with Some _ => 1 | None => 0 end.

(** ** Where a response comes from *)

(** The goroutine where it stands before the call its response comes
    from: [createServiceForFunction] at line 92, [GetByFunction] at line
    107. *)
Definition atCall (g : Goroutine) : Goroutine :=
  match g with
  | GoCreate req wg _ => GoCreate req wg AtCreate
  | GoWait req wg _ => GoWait req wg AtGetByFunction
  end.

(** The response the goroutine builds when it makes that call in state
    [s]. *)
Definition ownAnswer (g : Goroutine) (s : State)
  : createFuncServiceResponse :=
  match g with
  | GoCreate req _ _ =>
      response id (createServiceForFunction (funcMeta req) s).1
  | GoWait req _ _ => registryAnswer (ext s) (funcMeta req)
  end.

(** Response [r] of goroutine [i] was made by its call in state [s]; for a
    waiting goroutine the WaitGroup was released by then. *)
Definition answeredAt (i : nat) (g : Goroutine)
    (r : createFuncServiceResponse) (s : State) : Prop :=
  goroutines s !! i = Some (atCall g) ∧ r = ownAnswer g s ∧
  (isWait g = true → waitGroups s !! goWg g = Some 0).

(** The strategy a [createServiceForFunction] call is seen to take: whether
    the pool manager was asked for a pool in the course of the call. *)
Definition asksPool (m : ObjectMeta) (s : State) : bool :=
  negb (countIf isGetPool (calls (createServiceForFunction m s).2)
        =? countIf isGetPool (calls s)).

End Executor.

Arguments State : clear implicits.
Arguments Event : clear implicits.
Arguments Process : clear implicits.

(** ** A small cluster to run the executor on *)

Module Demo.

(** Modelled from the spec: the collaborators of its section 6, whose code
    is in other packages.  The metadata client looks definitions up by
    namespace and name; the pool manager hands out one pool per environment
    and specializes a warm instance while one is left, entering the new
    service in the registry under the function's key; the registry is
    looked up by that key. *)
Record Cluster := mkCluster {
  functions : gmap string Function;
  environments : gmap string Environment;
  registry : gmap string FuncSvc;
  warm : nat;
  made : nat;
}.

Definition path (ns name : string) : string := ns +:+ "/" +:+ name.

Definition key (m : ObjectMeta) : string :=
  Namespace m +:+ "/" +:+ Name m +:+ "@" +:+ ResourceVersion m.

Definition specialize (x : Cluster) (pool : GenericPool) (m : ObjectMeta)
  : (FuncSvc + error) * Cluster :=
  match warm x with
  | O => (inr "no warm instance left"%string, x)
  | S n =>
      let fsvc := mkFuncSvc m ("10.0.0." +:+ pretty (made x)) in
      (inl fsvc,
       mkCluster (functions x) (environments x)
                 (<[key m := fsvc]> (registry x)) n (S (made x)))
  end.

#[export] Instance cluster : Collaborators Cluster := {
  CacheKey := key;
  Functions_Get x ns name :=
    from_option inl (inr "function not found"%string)
                (functions x !! path ns name);
  Environments_Get x ns name :=
    from_option inl (inr "environment not found"%string)
                (environments x !! path ns name);
  gpm_GetPool x env := (inl (mkPool env), x);
  pool_GetFuncSvc := specialize;
  fsCache_GetByFunction x m :=
    from_option inl (inr "not found"%string) (registry x !! key m);
}.

Definition hello : ObjectMeta := mkMeta "hello" "default" "uid-1" "1".
Definition node : ObjectMeta := mkMeta "node" "default" "uid-2" "1".
Definition nodeEnv : Environment := mkEnvironment node "fission/node-env".
Definition helloFn : Function :=
  mkFunction hello (mkEnvRef "default" "node").

(** A cluster that knows [hello] and its environment and has [n] warm
    instances. *)
Definition cluster_with (n : nat) : Cluster :=
  mkCluster {[ path "default" "hello" := helloFn ]}
            {[ path "default" "node" := nodeEnv ]} ∅ n 0.

(** A cluster without any definition. *)
Definition empty_cluster : Cluster := mkCluster ∅ ∅ ∅ 0 0.

Definition start (n : nat) : State Cluster :=
  MakeExecutor 0 ∅ (cluster_with n).

(** The state a schedule leads to from [start n]. *)
Definition after (n : nat) (evs : list (Event Cluster)) : State Cluster :=
  default (start n) (run evs (start n)).

(** Two requests for [hello] have been received, nothing has run yet. *)
Definition two_requests : State Cluster :=
  after 2 [EvSubmit hello; EvSubmit hello].

(** One request for [hello] has been received. *)
Definition one_request : State Cluster := after 2 [EvSubmit hello].

(** The creation goroutine for [hello] has sent its response and stands
    before its [delete]. *)
Definition before_delete : State Cluster :=
  after 2 [EvSubmit hello; EvRun 0; EvRun 0].

(** The two services the cluster specializes first. *)
Definition svc0 : FuncSvc := mkFuncSvc hello "10.0.0.0".
Definition svc1 : FuncSvc := mkFuncSvc hello "10.0.0.1".

(** The creation goroutine for [hello] holds its response and stands
    before its send. *)
Definition before_send : State Cluster := after 2 [EvSubmit hello; EvRun 0].

(** Three requests for [hello]; the creation goroutine has ended, the two
    waiting goroutines have not moved yet. *)
Definition waiters_released : State Cluster :=
  after 2 [EvSubmit hello; EvSubmit hello; EvSubmit hello;
           EvRun 0; EvRun 0; EvRun 0; EvRun 0].

(** As before, and the first waiting goroutine has passed [wg.Wait()]. *)
Definition waiter_past_wait : State Cluster :=
  after 2 [EvSubmit hello; EvSubmit hello; EvSubmit hello;
           EvRun 0; EvRun 0; EvRun 0; EvRun 0; EvRun 1].

(** Two requests for [hello], both answered. *)
Definition all_answered : State Cluster :=
  after 2 [EvSubmit hello; EvSubmit hello;
           EvRun 0; EvRun 0; EvRun 0; EvRun 0; EvRun 1; EvRun 1; EvRun 1].

(** A function the cluster does not know. *)
Definition bye : ObjectMeta := mkMeta "bye" "default" "uid-3" "1".

(** The process on the cluster, and where a schedule leads it. *)
Definition booted (n : nat) : Process Cluster := boot 0 ∅ (cluster_with n).

Definition played (n : nat) (evs : list (Event Cluster)) : Process Cluster :=
  default (booted n) (play evs (booted n)).

(** Two requests for [hello], both answered; the [delete] of the creation
    goroutine takes two steps. *)
Definition both_answered : list (Event Cluster) :=
  [EvSubmit hello; EvSubmit hello;
   EvRun 0; EvRun 0; EvRun 0; EvRun 0; EvRun 0; EvRun 1; EvRun 1; EvRun 1].

(** A request for [hello] and one for [bye]; the creation goroutine for
    [hello] has sent its response and stands before its [delete]. *)
Definition first_before_delete : list (Event Cluster) :=
  [EvSubmit hello; EvSubmit bye; EvRun 0; EvRun 0].

(** The process environment with the deploy backend selected. *)
Definition deploy_environ : gmap string string :=
  {[ "EXECUTOR_BACKEND"%string := "DEPLOY"%string ]}.

(** After a first [createServiceForFunction] call for [hello] the
    variable is set to [DEPLOY]. *)
Definition before_second_call : State Cluster :=
  set_world 1 deploy_environ (cluster_with 2)
    (createServiceForFunction hello (start 2)).2.

End Demo.

(** * Properties *)

(** ** Environment resolution *)

Section Resolver.
Context {X : Type} `{!Collaborators X}.
Implicit Types (s : State X) (m : ObjectMeta) (env : Environment).

Lemma Cache_Get_inl {V} (c : Cache V) key t v :
  Cache_Get c key t = inl v ↔
  ∃ ctime, entries c !! key = Some (v, ctime) ∧ (t < ctime + ctimeExpiry c)%Z.
Proof.
  unfold Cache_Get. destruct (entries c !! key) as [[v' ct]|] eqn:E.
  - destruct (Z.ltb_spec t (ct + ctimeExpiry c)); split.
    + intros [= ->]. eauto.
    + intros (? & [= -> ->] & ?). done.
    + done.
    + intros (? & [= -> ->] & ?). lia.
  - split; [done | intros (? & ? & ?); done].
Qed.

Lemma Cache_Get_Set {V} (c : Cache V) key v t0 t :
  (t < t0 + ctimeExpiry c)%Z →
  Cache_Get (Cache_Set c key v t0) key t = inl v.
Proof.
  intros Ht. apply Cache_Get_inl. exists t0. simpl.
  by rewrite lookup_insert_eq.
Qed.

(** A hit returns the cached environment and touches nothing: no call to
    the metadata client, no write to the cache. *)
Lemma getFunctionEnv_hit m s env :
  Cache_Get (functionEnv s) (CacheKey m) (now s) = inl env →
  getFunctionEnv m s = (Ok env, s).
Proof. intros H. unfold getFunctionEnv. by rewrite H. Qed.

(** A miss whose two fetches succeed. *)
Lemma getFunctionEnv_miss m s e f env :
  Cache_Get (functionEnv s) (CacheKey m) (now s) = inr e →
  Functions_Get (ext s) (Namespace m) (Name m) = inl f →
  Environments_Get (ext s) (ref_Namespace (fn_Spec_Environment f))
    (ref_Name (fn_Spec_Environment f)) = inl env →
  getFunctionEnv m s =
    (Ok env,
     set_functionEnv (Cache_Set (functionEnv s) (CacheKey m) env (now s))
       (log_call (CallEnvironmentsGet (ref_Namespace (fn_Spec_Environment f))
                    (ref_Name (fn_Spec_Environment f)))
          (log_call (CallFunctionsGet (Namespace m) (Name m)) s))).
Proof.
  intros Hc Hf He. unfold getFunctionEnv. rewrite Hc.
  unfold bind, fissionClient_Functions_Get, fissionClient_Environments_Get.
  simpl. rewrite Hf. simpl. rewrite He. done.
Qed.

(** While the entry written at [t0] has not expired, resolution calls for
    the identity are hits, whatever the metadata has become. *)
Lemma resolveRepeatedly_hits m env t0 ws : ∀ s,
  entries (functionEnv s) !! CacheKey m = Some (env, t0) →
  Forall (λ w, (w.1 < t0 + ctimeExpiry (functionEnv s))%Z) ws →
  ∃ s', resolveRepeatedly m ws s = (replicate (length ws) (Ok env), s') ∧
        calls s' = calls s ∧ functionEnv s' = functionEnv s.
Proof.
  induction ws as [|[t x] ws IH]; intros s Hent Hall; simpl.
  - eauto.
  - inversion Hall as [|? ? Ht Hall']; subst. simpl in Ht.
    rewrite getFunctionEnv_hit with (env := env).
    2:{ apply Cache_Get_inl. exists t0. done. }
    destruct (IH (set_world t (environ s) x s)) as (s' & -> & Hc & Hf);
      [done | done |].
    eauto.
Qed.

(** C6: a resolution that misses performs the two-step fetch (function by
    namespace and name, then the environment it references), stores the
    environment under the function's key with the time of insertion, and
    returns it; from then until the fixed expiry has elapsed every
    resolution call for that identity returns the stored environment
    without any call to the metadata client, whatever the metadata has
    become in the meantime.  So the window of an entry sees one fetch. *)
Theorem getFunctionEnv_one_fetch_per_window m s e f env :
  Cache_Get (functionEnv s) (CacheKey m) (now s) = inr e →
  Functions_Get (ext s) (Namespace m) (Name m) = inl f →
  Environments_Get (ext s) (ref_Namespace (fn_Spec_Environment f))
    (ref_Name (fn_Spec_Environment f)) = inl env →
  ∃ s1,
    getFunctionEnv m s = (Ok env, s1) ∧
    calls s1 = calls s ++
      [CallFunctionsGet (Namespace m) (Name m);
       CallEnvironmentsGet (ref_Namespace (fn_Spec_Environment f))
         (ref_Name (fn_Spec_Environment f))] ∧
    entries (functionEnv s1) !! CacheKey m = Some (env, now s) ∧
    ∀ ws,
      Forall (λ w, (w.1 < now s + ctimeExpiry (functionEnv s))%Z) ws →
      ∃ s2,
        resolveRepeatedly m ws s1 = (replicate (length ws) (Ok env), s2) ∧
        calls s2 = calls s1 ∧ functionEnv s2 = functionEnv s1.
Proof.
  intros Hc Hf He. eexists. split; [by eapply getFunctionEnv_miss |].
  split; [simpl; by rewrite <- app_assoc |].
  split; [simpl; by rewrite lookup_insert_eq |].
  intros ws Hall. apply resolveRepeatedly_hits with (t0 := now s).
  - simpl. by rewrite lookup_insert_eq.
  - done.
Qed.

(** The executor is made with a fixed expiry of ten seconds. *)
Lemma MakeExecutor_expiry t e (x : X) :
  ctimeExpiry (functionEnv (MakeExecutor t e x)) = (10 * Second)%Z.
Proof. reflexivity. Qed.

(** C7: when the cache misses and either fetch fails, the error of that
    fetch is returned as it is and the cache is left as it was; a later
    call that finds the cache as it was left misses again and starts with
    the function fetch. *)
Theorem getFunctionEnv_failure_not_cached m s e0 e :
  Cache_Get (functionEnv s) (CacheKey m) (now s) = inr e0 →
  (Functions_Get (ext s) (Namespace m) (Name m) = inr e ∨
   ∃ f, Functions_Get (ext s) (Namespace m) (Name m) = inl f ∧
        Environments_Get (ext s) (ref_Namespace (fn_Spec_Environment f))
          (ref_Name (fn_Spec_Environment f)) = inr e) →
  ∃ s1,
    getFunctionEnv m s = (Err e, s1) ∧
    functionEnv s1 = functionEnv s ∧
    ∀ t x, (now s ≤ t)%Z →
      let s2 := set_world t (environ s1) x s1 in
      ∃ r s3 rest,
        getFunctionEnv m s2 = (r, s3) ∧
        calls s3 =
          calls s1 ++ CallFunctionsGet (Namespace m) (Name m) :: rest.
Proof.
  intros Hc Hfail.
  assert (∃ s1, getFunctionEnv m s = (Err e, s1) ∧
                functionEnv s1 = functionEnv s) as (s1 & Hrun & Hsame).
  { unfold getFunctionEnv. rewrite Hc.
    unfold bind, fissionClient_Functions_Get, fissionClient_Environments_Get.
    destruct Hfail as [Hf | (f & Hf & He)]; simpl; rewrite Hf; simpl.
    - eauto.
    - rewrite He. simpl. eauto. }
  exists s1. split; [done |]. split; [done |].
  intros t x Ht s2.
  assert (∃ e1, Cache_Get (functionEnv s2) (CacheKey m) (now s2) = inr e1)
    as [e1 Hmiss].
  { subst s2. simpl. rewrite Hsame.
    destruct (Cache_Get (functionEnv s) (CacheKey m) t) as [v|e1] eqn:E;
      [| eauto].
    apply Cache_Get_inl in E as (ct & Hent & Hlt).
    assert (Cache_Get (functionEnv s) (CacheKey m) (now s) = inl v) as Hhit.
    { apply Cache_Get_inl. exists ct. split; [done | lia]. }
    congruence. }
  unfold getFunctionEnv. rewrite Hmiss.
  unfold bind, fissionClient_Functions_Get, fissionClient_Environments_Get.
  subst s2. simpl.
  destruct (Functions_Get x (Namespace m) (Name m)) as [f|e2]; simpl.
  - destruct (Environments_Get x _ _) as [env|e3]; simpl;
      do 3 eexists; (split; [reflexivity |]); simpl;
      by rewrite <- app_assoc.
  - do 3 eexists. split; [reflexivity |]. done.
Qed.

End Resolver.

(** ** Backend dispatch *)

Section Dispatcher.
Context {X : Type} `{!Collaborators X}.
Implicit Types (s : State X) (m : ObjectMeta) (env : Environment).

Lemma eqb_DEPLOY (b : string) :
  String.eqb b "DEPLOY" = bool_decide (b = "DEPLOY"%string).
Proof.
  destruct (String.eqb_spec b "DEPLOY"); symmetry.
  - by apply bool_decide_eq_true.
  - by apply bool_decide_eq_false.
Qed.

Lemma dispatchBackend_DEPLOY m env s :
  Getenv "EXECUTOR_BACKEND" s = "DEPLOY"%string →
  dispatchBackend m env s = (Ok None, s).
Proof. intros H. unfold dispatchBackend. by rewrite H. Qed.

Lemma dispatchBackend_default m env s :
  Getenv "EXECUTOR_BACKEND" s ≠ "DEPLOY"%string →
  dispatchBackend m env s = poolBackend m env s.
Proof.
  intros H. unfold dispatchBackend. rewrite eqb_DEPLOY.
  by rewrite bool_decide_eq_false_2.
Qed.

(** The pool arm always calls the pool manager, so it never leaves the
    state as it found it. *)
Lemma poolBackend_calls m env s :
  ∃ rest, calls (poolBackend m env s).2 = calls s ++ CallGetPool env :: rest.
Proof.
  unfold poolBackend, bind, GetPool, GetFuncSvc.
  destruct (gpm_GetPool (ext s) env) as [[pool|e] x1]; simpl.
  - destruct (pool_GetFuncSvc x1 pool m) as [[fsvc|e] x2]; simpl;
      eexists; by rewrite <- app_assoc.
  - by eexists.
Qed.

Lemma poolBackend_not_deploy m env s : poolBackend m env s ≠ (Ok None, s).
Proof.
  intros Heq. destruct (poolBackend_calls m env s) as [rest Hc].
  rewrite Heq in Hc. simpl in Hc.
  apply (f_equal length) in Hc. rewrite length_app in Hc. simpl in Hc. lia.
Qed.

Lemma getFunctionEnv_environ m s r s1 :
  getFunctionEnv m s = (r, s1) → environ s1 = environ s.
Proof.
  unfold getFunctionEnv, bind, fissionClient_Functions_Get,
    fissionClient_Environments_Get.
  destruct (Cache_Get _ _ _); [by intros [= <- <-] |].
  destruct (Functions_Get _ _ _) as [f|]; simpl; [| by intros [= <- <-]].
  destruct (Environments_Get _ _ _); simpl; by intros [= <- <-].
Qed.

Lemma deploy_nil m env s s1 :
  Getenv "EXECUTOR_BACKEND" s = "DEPLOY"%string →
  getFunctionEnv m s = (Ok env, s1) →
  createServiceForFunction m s = (Ok None, s1).
Proof.
  intros Hd Hres. unfold createServiceForFunction, bind. rewrite Hres.
  apply dispatchBackend_DEPLOY. unfold Getenv in *.
  by rewrite (getFunctionEnv_environ _ _ _ _ Hres).
Qed.

(** C9: with [EXECUTOR_BACKEND] set to [DEPLOY], the dispatch returns a nil
    service and a nil error for every identity and environment, calls no
    collaborator and changes nothing; so does [createServiceForFunction]
    once the environment is resolved, and the response built from it has
    both fields nil. *)
Theorem deploy_backend_returns_nil_nil m env s s1 :
  Getenv "EXECUTOR_BACKEND" s = "DEPLOY"%string →
  getFunctionEnv m s = (Ok env, s1) →
  dispatchBackend m env s = (Ok None, s) ∧
  createServiceForFunction m s = (Ok None, s1) ∧
  response id (createServiceForFunction m s).1 = mkResponse None None.
Proof.
  intros Hd Hres.
  assert (createServiceForFunction m s = (Ok None, s1)) as Hc
    by (by eapply deploy_nil).
  split; [by apply dispatchBackend_DEPLOY |]. split; [done |].
  by rewrite Hc.
Qed.

(** C10: the switch compares the variable with the exact string [DEPLOY].
    That value alone selects the no-op arm; every other value, the empty
    string of an unset variable and any other spelling included, runs the
    pool arm, whose only errors are the pool manager's own. *)
Theorem executor_backend_exact_match m env s :
  (dispatchBackend m env s = (Ok None, s) ↔
   Getenv "EXECUTOR_BACKEND" s = "DEPLOY"%string) ∧
  (Getenv "EXECUTOR_BACKEND" s ≠ "DEPLOY"%string →
   dispatchBackend m env s = poolBackend m env s) ∧
  (environ s !! "EXECUTOR_BACKEND"%string = None →
   Getenv "EXECUTOR_BACKEND" s = ""%string ∧
   dispatchBackend m env s = poolBackend m env s) ∧
  (∀ e s', poolBackend m env s = (Err e, s') →
     (gpm_GetPool (ext s) env).1 = inr e ∨
     ∃ pool x1, gpm_GetPool (ext s) env = (inl pool, x1) ∧
                (pool_GetFuncSvc x1 pool m).1 = inr e).
Proof.
  split; [| split; [| split]].
  - split.
    + intros Hd.
      destruct (decide (Getenv "EXECUTOR_BACKEND" s = "DEPLOY"%string));
        [done |].
      rewrite dispatchBackend_default in Hd by done.
      by apply poolBackend_not_deploy in Hd.
    + apply dispatchBackend_DEPLOY.
  - apply dispatchBackend_default.
  - intros Hunset.
    assert (Getenv "EXECUTOR_BACKEND" s = ""%string) as Hg
      by (unfold Getenv; by rewrite Hunset).
    split; [done |]. apply dispatchBackend_default. by rewrite Hg.
  - intros e s'. unfold poolBackend, bind, GetPool, GetFuncSvc.
    destruct (gpm_GetPool (ext s) env) as [[pool|e1] x1] eqn:Hp; simpl.
    + destruct (pool_GetFuncSvc x1 pool m) as [[fsvc|e2] x2] eqn:Hs; simpl;
        [done |].
      intros [= -> _]. right. exists pool, x1. by rewrite Hs.
    + intros [= -> _]. by left.
Qed.

End Dispatcher.

(** ** The coordinator's bookkeeping stays consistent *)

(** Case analysis on a lookup in a list updated at one index, or extended
    at its end. *)
Ltac insert_cases H :=
  let Hne := fresh "Hne" in
  apply list_lookup_insert_Some in H as [(<- & <- & ?) | (Hne & H)].
Ltac snoc_cases H :=
  apply lookup_snoc_Some in H as [(? & H) | (-> & <-)].

Section Bookkeeping.
Context {X : Type} `{!Collaborators X}.
Implicit Types (gs : list Goroutine) (g : Goroutine) (wgs : list nat)
  (chs : list (list createFuncServiceResponse)) (tbl : gmap string nat).

Lemma answerOf_same g g' resp :
  goReq g' = goReq g → isWait g' = isWait g →
  answerOf (X:=X) g resp → answerOf (X:=X) g' resp.
Proof. unfold answerOf. by intros -> ->. Qed.

Lemma ChansOk_goto gs chs i g g' :
  ChansOk (X:=X) gs chs → gs !! i = Some g →
  goReq g' = goReq g → isWait g' = isWait g → hasSent g' = hasSent g →
  (∀ resp, pendingResp g' = Some resp →
     pendingResp g = Some resp ∨ answerOf (X:=X) g' resp) →
  ChansOk (X:=X) (<[i:=g']> gs) chs.
Proof.
  intros [Hlen Hown Hsent Hans] Hi Hreq Hw Hs Hp. split.
  - by rewrite length_insert.
  - intros j h Hj. insert_cases Hj; [rewrite Hreq |]; eauto.
  - intros j h Hj. insert_cases Hj; [rewrite Hs |]; eauto.
  - intros j h q resp Hj Hq Hresp. insert_cases Hj; [| eauto].
    destruct Hresp as [Hp' | Hin].
    + destruct (Hp _ Hp') as [Hp'' | ?]; [| done].
      eapply answerOf_same; eauto.
    + eapply answerOf_same; eauto.
Qed.

Lemma ChansOk_send gs chs i g g' r :
  ChansOk (X:=X) gs chs → gs !! i = Some g →
  goReq g' = goReq g → isWait g' = isWait g →
  hasSent g = false → hasSent g' = true →
  pendingResp g' = None → pendingResp g = Some r →
  ∃ q, chs !! respChan (goReq g) = Some q ∧
       ChansOk (X:=X) (<[i:=g']> gs) (<[respChan (goReq g) := q ++ [r]]> chs).
Proof.
  intros [Hlen Hown Hsent Hans] Hi Hreq Hw Hs Hs' Hnone Hp.
  rewrite (Hown _ _ Hi).
  destruct (Hsent _ _ Hi) as (q & Hq & Hql). rewrite Hs in Hql.
  destruct q; [| done]. exists []. split; [done |].
  assert (i < length chs) by (by eapply lookup_lt_Some).
  split.
  - by rewrite !length_insert.
  - intros j h Hj. insert_cases Hj; [rewrite Hreq |]; eauto.
  - intros j h Hj. insert_cases Hj.
    + rewrite list_lookup_insert_eq by done. rewrite Hs'. eauto.
    + rewrite list_lookup_insert_ne by done. eauto.
  - intros j h q resp Hj Hq' Hresp. insert_cases Hj.
    + rewrite list_lookup_insert_eq in Hq' by done. injection Hq' as <-.
      destruct Hresp as [Hp' | Hin]; [congruence |].
      apply list_elem_of_singleton in Hin as ->.
      eapply answerOf_same; eauto.
    + rewrite list_lookup_insert_ne in Hq' by done. eauto.
Qed.

Lemma ChansOk_snoc gs chs g :
  ChansOk (X:=X) gs chs → respChan (goReq g) = length chs →
  hasSent g = false → pendingResp g = None →
  ChansOk (X:=X) (gs ++ [g]) (chs ++ [[]]).
Proof.
  intros [Hlen Hown Hsent Hans] Hch Hs Hp. split.
  - rewrite !length_app. simpl. lia.
  - intros j h Hj. snoc_cases Hj; [eauto | congruence].
  - intros j h Hj. snoc_cases Hj.
    + destruct (Hsent _ _ Hj) as (q & Hq & Hl). exists q.
      split; [| done]. by apply lookup_app_l_Some.
    + exists []. rewrite Hs. split; [| done].
      rewrite <- Hlen. by apply list_lookup_middle.
  - intros j h q resp Hj Hq Hresp. snoc_cases Hj.
    + rewrite lookup_app_l in Hq by lia. eauto.
    + rewrite <- Hlen in Hq. rewrite list_lookup_middle in Hq by done.
      injection Hq as <-. destruct Hresp as [? | Hin]; [congruence |].
      by apply elem_of_nil in Hin.
Qed.

Lemma wgCounter_isWait g n : wgCounter g = Some n → isWait g = false.
Proof. by destruct g. Qed.

Lemma inFlight_Some k g wg :
  inFlight k g = Some wg →
  isWait g = false ∧ goWg g = wg ∧ CacheKey (funcMeta (goReq g)) = k ∧
  wgCounter g = Some 1.
Proof.
  destruct g as [req w pc|]; [| done]. simpl.
  destruct pc; try done; case_decide; try done; by intros [= ->].
Qed.

Lemma WaitGroupsOk_goto gs wgs i g g' :
  WaitGroupsOk gs wgs → gs !! i = Some g →
  goWg g' = goWg g → isWait g' = isWait g → wgCounter g' = wgCounter g →
  WaitGroupsOk (<[i:=g']> gs) wgs.
Proof.
  intros [Hb Hc Ho Hm] Hi Hwg Hw Hn. split.
  - intros j h Hj. insert_cases Hj; [rewrite Hwg |]; eauto.
  - intros j h n Hj Hcnt. insert_cases Hj; [| eauto].
    rewrite Hwg. rewrite Hn in Hcnt. eauto.
  - intros j1 j2 h1 h2 H1 H2 Hw1 Hw2 Heq.
    insert_cases H1; insert_cases H2; try done.
    + rewrite Hwg in Heq. rewrite Hw in Hw1. eauto.
    + rewrite Hwg in Heq. rewrite Hw in Hw2. eauto.
    + eauto.
  - intros wg Hlt. destruct (Hm wg Hlt) as (j & h & Hj & Hw' & Hg).
    destruct (decide (j = i)) as [-> | Hne].
    + exists i, g'. assert (h = g) as -> by congruence.
      split; [| split; congruence].
      apply list_lookup_insert_eq. by eapply lookup_lt_Some.
    + exists j, h. split; [| done]. by rewrite list_lookup_insert_ne.
Qed.

Lemma WaitGroupsOk_done gs wgs i req wg :
  WaitGroupsOk gs wgs → gs !! i = Some (GoCreate req wg AtDone) →
  wgs !! wg = Some 1 ∧
  WaitGroupsOk (<[i:=GoCreate req wg CreateExited]> gs) (<[wg:=0]> wgs).
Proof.
  intros [Hb Hc Ho Hm] Hi.
  assert (wgs !! wg = Some 1) as Hone by (by apply (Hc _ _ _ Hi)).
  split; [done |].
  assert (wg < length wgs) by (by eapply lookup_lt_Some).
  split.
  - intros j h Hj. rewrite length_insert. insert_cases Hj; eauto.
  - intros j h n Hj Hcnt. insert_cases Hj.
    + injection Hcnt as <-. by apply list_lookup_insert_eq.
    + rewrite list_lookup_insert_ne; [eauto |].
      intros Heq. apply wgCounter_isWait in Hcnt.
      apply Hne. symmetry. by eapply (Ho j i).
  - intros j1 j2 h1 h2 H1 H2 Hw1 Hw2 Heq.
    insert_cases H1; insert_cases H2; try done.
    + by eapply (Ho i j2).
    + by eapply (Ho j1 i).
    + eauto.
  - intros w Hlt. rewrite length_insert in Hlt.
    destruct (Hm w Hlt) as (j & h & Hj & Hw' & Hg).
    destruct (decide (j = i)) as [-> | Hne].
    + exists i, (GoCreate req wg CreateExited).
      assert (h = GoCreate req wg AtDone) as -> by congruence.
      split; [| done].
      apply list_lookup_insert_eq. by eapply lookup_lt_Some.
    + exists j, h. split; [| done]. by rewrite list_lookup_insert_ne.
Qed.

Lemma WaitGroupsOk_snoc_create gs wgs req :
  WaitGroupsOk gs wgs →
  WaitGroupsOk (gs ++ [GoCreate req (length wgs) AtCreate]) (wgs ++ [1]).
Proof.
  intros [Hb Hc Ho Hm]. split.
  - intros j h Hj. rewrite length_app. simpl. snoc_cases Hj.
    + specialize (Hb _ _ Hj). lia.
    + simpl. lia.
  - intros j h n Hj Hcnt. snoc_cases Hj.
    + apply lookup_app_l_Some. eauto.
    + injection Hcnt as <-. simpl. by apply list_lookup_middle.
  - intros j1 j2 h1 h2 H1 H2 Hw1 Hw2 Heq.
    snoc_cases H1; snoc_cases H2; try done.
    + eauto.
    + specialize (Hb _ _ H1). simpl in Heq. lia.
    + specialize (Hb _ _ H2). simpl in Heq. lia.
  - intros w Hlt. rewrite length_app in Hlt. simpl in Hlt.
    destruct (decide (w = length wgs)) as [-> | Hne].
    + exists (length gs), (GoCreate req (length wgs) AtCreate).
      split; [by apply list_lookup_middle | done].
    + destruct (Hm w) as (j & h & Hj & ?); [lia |].
      exists j, h. split; [by apply lookup_app_l_Some | done].
Qed.

Lemma WaitGroupsOk_snoc_wait gs wgs req wg :
  WaitGroupsOk gs wgs → wg < length wgs →
  WaitGroupsOk (gs ++ [GoWait req wg AtWait]) wgs.
Proof.
  intros [Hb Hc Ho Hm] Hlt. split.
  - intros j h Hj. snoc_cases Hj; [eauto | done].
  - intros j h n Hj Hcnt. snoc_cases Hj; [eauto | done].
  - intros j1 j2 h1 h2 H1 H2 Hw1 Hw2 Heq.
    snoc_cases H1; snoc_cases H2; try done. eauto.
  - intros w Hw. destruct (Hm w Hw) as (j & h & Hj & ?).
    exists j, h. split; [by apply lookup_app_l_Some | done].
Qed.

Lemma MarkersOk_goto gs tbl i g g' :
  MarkersOk gs tbl → gs !! i = Some g →
  (∀ k, inFlight k g' = inFlight k g) →
  MarkersOk (<[i:=g']> gs) tbl.
Proof.
  intros Hm Hi Hsame k wg. rewrite (Hm k wg). split.
  - intros (j & h & Hj & Hf). destruct (decide (j = i)) as [-> | Hne].
    + exists i, g'. assert (h = g) as -> by congruence.
      split; [| by rewrite Hsame].
      apply list_lookup_insert_eq. by eapply lookup_lt_Some.
    + exists j, h. split; [| done]. by rewrite list_lookup_insert_ne.
  - intros (j & h & Hj & Hf). insert_cases Hj.
    + exists i, g. split; [done |]. by rewrite <- Hsame.
    + eauto.
Qed.

Lemma MarkersOk_delete gs wgs tbl i req wg :
  WaitGroupsOk gs wgs → MarkersOk gs tbl →
  gs !! i = Some (GoCreate req wg AtDelete) →
  MarkersOk (<[i:=GoCreate req wg AtDone]> gs)
            (delete (CacheKey (funcMeta req)) tbl).
Proof.
  intros Hwg Hm Hi k w. rewrite lookup_delete_Some, (Hm k w). split.
  - intros (Hne & j & h & Hj & Hf).
    exists j, h. split; [| done]. rewrite list_lookup_insert_ne; [done |].
    intros <-. assert (h = GoCreate req wg AtDelete) as -> by congruence.
    apply inFlight_Some in Hf as (_ & _ & Hk & _). done.
  - intros (j & h & Hj & Hf). insert_cases Hj; [done |].
    split; [| eauto].
    intros <-.
    assert (tbl !! CacheKey (funcMeta req) = Some w) as Hw
      by (apply Hm; eauto).
    assert (tbl !! CacheKey (funcMeta req) = Some wg) as Hw'.
    { apply Hm. exists i, (GoCreate req wg AtDelete). split; [done |].
      simpl. by rewrite decide_True. }
    assert (w = wg) as -> by congruence.
    apply inFlight_Some in Hf as (Hnw & Hg & _).
    apply Hne. by eapply (wg_owner _ _ Hwg i j).
Qed.

Lemma MarkersOk_snoc_miss gs tbl req wg :
  MarkersOk gs tbl → tbl !! CacheKey (funcMeta req) = None →
  MarkersOk (gs ++ [GoCreate req wg AtCreate])
            (<[CacheKey (funcMeta req) := wg]> tbl).
Proof.
  intros Hm Hnone k w. rewrite lookup_insert_Some, (Hm k w). split.
  - intros [(<- & <-) | (Hne & j & h & Hj & Hf)].
    + exists (length gs), (GoCreate req wg AtCreate).
      split; [by apply list_lookup_middle |]. simpl. by rewrite decide_True.
    + exists j, h. split; [by apply lookup_app_l_Some | done].
  - intros (j & h & Hj & Hf). snoc_cases Hj.
    + right. split; [| eauto]. intros <-.
      assert (tbl !! CacheKey (funcMeta req) = Some w) by (apply Hm; eauto).
      congruence.
    + left. simpl in Hf. case_decide; [| done]. by injection Hf as <-.
Qed.

Lemma MarkersOk_snoc_other gs tbl g :
  MarkersOk gs tbl → (∀ k, inFlight k g = None) →
  MarkersOk (gs ++ [g]) tbl.
Proof.
  intros Hm Hnone k w. rewrite (Hm k w). split.
  - intros (j & h & Hj & Hf). exists j, h.
    split; [by apply lookup_app_l_Some | done].
  - intros (j & h & Hj & Hf). snoc_cases Hj; [eauto |].
    by rewrite Hnone in Hf.
Qed.


Lemma getFunctionEnv_frame m s r s' :
  getFunctionEnv m s = (r, s') → sameBookkeeping (X:=X) s s'.
Proof.
  unfold getFunctionEnv, bind, fissionClient_Functions_Get,
    fissionClient_Environments_Get, of_sum.
  destruct (Cache_Get _ _ _); [by intros [= <- <-] |].
  destruct (Functions_Get _ _ _) as [f|]; simpl; [| by intros [= <- <-]].
  destruct (Environments_Get _ _ _); simpl; by intros [= <- <-].
Qed.

Lemma dispatchBackend_frame m env s r s' :
  dispatchBackend m env s = (r, s') → sameBookkeeping (X:=X) s s'.
Proof.
  unfold dispatchBackend, poolBackend, bind, GetPool, GetFuncSvc, of_sum.
  destruct (String.eqb _ _); [by intros [= <- <-] |].
  destruct (gpm_GetPool _ _) as [[pool|] x1]; simpl; [| by intros [= <- <-]].
  destruct (pool_GetFuncSvc _ _ _) as [[fsvc|] x2]; simpl;
    by intros [= <- <-].
Qed.

Lemma createServiceForFunction_frame m s r s' :
  createServiceForFunction m s = (r, s') → sameBookkeeping (X:=X) s s'.
Proof.
  unfold createServiceForFunction, bind.
  destruct (getFunctionEnv m s) as [[env|e] s1] eqn:He.
  - intros Hd. apply getFunctionEnv_frame in He.
    apply dispatchBackend_frame in Hd.
    unfold sameBookkeeping in *. intuition congruence.
  - intros [= <- <-]. by eapply getFunctionEnv_frame.
Qed.

Lemma Inv_MakeExecutor t e (x : X) : Inv (MakeExecutor t e x).
Proof.
  split; [| split].
  - split; simpl; try done.
  - split; simpl; try done. intros wg Hlt. lia.
  - intros k wg. simpl. rewrite lookup_empty. split; [done |].
    by intros (? & ? & ? & ?).
Qed.

Lemma Inv_step ev (s s' : State X) :
  step ev s = Some s' → Inv s → Inv s'.
Proof.
  intros Hstep (Hch & Hwg & Hmk). destruct ev as [m | g | t e x].
  - (* a request is received *)
    simpl in Hstep. injection Hstep as <-.
    unfold serveCreateFuncServices. simpl.
    destruct (fsCreateWg s !! CacheKey m) as [wg|] eqn:Hk; simpl.
    + split; [| split].
      * by apply ChansOk_snoc.
      * apply WaitGroupsOk_snoc_wait; [done |].
        apply Hmk in Hk as (i & h & Hi & Hf).
        apply inFlight_Some in Hf as (_ & <- & _).
        by eapply wg_bound.
      * by apply MarkersOk_snoc_other.
    + split; [| split].
      * by apply ChansOk_snoc.
      * by apply WaitGroupsOk_snoc_create.
      * by apply (MarkersOk_snoc_miss _ _ (mkRequest m _)).
  - (* a goroutine executes one statement *)
    simpl in Hstep.
    destruct (goroutines s !! g) as [[req wg pc | req wg pc]|] eqn:Hg;
      [| | done].
    + destruct pc as [| resp | | |]; simpl in Hstep.
      * destruct (createServiceForFunction (funcMeta req) s) as [r s1] eqn:Hc.
        injection Hstep as <-.
        destruct (createServiceForFunction_frame _ _ _ _ Hc)
          as (Ht & Hw & Hgs & Hcs).
        unfold Inv. simpl. rewrite Ht, Hw, Hgs, Hcs.
        split; [| split].
        -- eapply ChansOk_goto; eauto. simpl. intros resp [= <-].
           right. unfold answerOf. simpl. exists s. by rewrite Hc.
        -- by eapply WaitGroupsOk_goto.
        -- by eapply MarkersOk_goto.
      * destruct (ChansOk_send _ _ g _ (GoCreate req wg AtDelete) resp
                    Hch Hg) as (q & Hq & Hch'); try done.
        unfold send in Hstep. simpl in Hq. rewrite Hq in Hstep.
        simpl in Hstep. injection Hstep as <-.
        split; [| split]; simpl.
        -- done.
        -- by eapply WaitGroupsOk_goto.
        -- by eapply MarkersOk_goto.
      * injection Hstep as <-. split; [| split]; simpl.
        -- by eapply ChansOk_goto.
        -- by eapply WaitGroupsOk_goto.
        -- by eapply MarkersOk_delete.
      * destruct (WaitGroupsOk_done _ _ _ _ _ Hwg Hg) as [Hone Hwg'].
        rewrite Hone in Hstep. injection Hstep as <-.
        split; [| split]; simpl.
        -- by eapply ChansOk_goto.
        -- done.
        -- by eapply MarkersOk_goto.
      * done.
    + destruct pc as [| | resp |]; simpl in Hstep.
      * destruct (waitGroups s !! wg) as [[|n]|]; [| done | done].
        injection Hstep as <-. split; [| split]; simpl.
        -- by eapply ChansOk_goto; eauto.
        -- by eapply WaitGroupsOk_goto.
        -- by eapply MarkersOk_goto.
      * injection Hstep as <-. split; [| split]; simpl.
        -- eapply ChansOk_goto; eauto.
           simpl. intros resp [= <-]. right. by exists (ext s).
        -- by eapply WaitGroupsOk_goto.
        -- by eapply MarkersOk_goto.
      * destruct (ChansOk_send _ _ g _ (GoWait req wg WaitExited) resp
                    Hch Hg) as (q & Hq & Hch'); try done.
        unfold send in Hstep. simpl in Hq. rewrite Hq in Hstep.
        simpl in Hstep. injection Hstep as <-.
        split; [| split]; simpl.
        -- done.
        -- by eapply WaitGroupsOk_goto.
        -- by eapply MarkersOk_goto.
      * done.
  - (* the world moves *)
    simpl in Hstep. case_decide; [| done]. injection Hstep as <-. done.
Qed.

Lemma Inv_run evs : ∀ (s s' : State X), run evs s = Some s' → Inv s → Inv s'.
Proof.
  induction evs as [|ev evs IH]; intros s s' Hrun Hinv; simpl in Hrun.
  - by injection Hrun as <-.
  - destruct (step ev s) as [s1|] eqn:Hstep; [| done]. simpl in Hrun.
    eapply IH; [done |]. by eapply Inv_step.
Qed.

Lemma reachable_Inv (s : State X) : reachable s → Inv s.
Proof.
  intros (t & e & x & evs & Hrun).
  eapply Inv_run; [done |]. apply Inv_MakeExecutor.
Qed.

End Bookkeeping.

(** ** The coordinator *)

Section Coordinator.
Context {X : Type} `{!Collaborators X}.
Implicit Types (s : State X) (g : Goroutine) (m : ObjectMeta).

Lemma run_cons ev evs s : run (ev :: evs) s = step ev s ≫= run evs.
Proof. reflexivity. Qed.

Lemma run_app evs1 : ∀ evs2 s,
  run (evs1 ++ evs2) s = run evs1 s ≫= run evs2.
Proof.
  induction evs1 as [|ev evs1 IH]; intros evs2 s; [done |].
  rewrite <- app_comm_cons, !run_cons. destruct (step ev s); simpl; eauto.
Qed.

(** *** Every goroutine runs to its end *)

Lemma work_goto s1 s i g g' :
  goroutines s1 = goroutines s →
  goroutines s !! i = Some g → remaining g = S (remaining g') →
  work s = S (work (goto i g' s1)).
Proof.
  intros Hgs Hi Hrem. unfold work, goto. simpl. rewrite Hgs.
  rewrite <- (take_drop_middle _ _ _ Hi) at 1.
  rewrite insert_take_drop by (by eapply lookup_lt_Some).
  rewrite !sum_list_with_app. simpl. lia.
Qed.

Lemma goto_reqs s1 s i g g' :
  goroutines s1 = goroutines s →
  goroutines s !! i = Some g → goReq g' = goReq g →
  length (goroutines (goto i g' s1)) = length (goroutines s) ∧
  ∀ j h, goroutines s !! j = Some h →
    ∃ h', goroutines (goto i g' s1) !! j = Some h' ∧ goReq h' = goReq h.
Proof.
  intros Hgs Hi Hreq. unfold goto. simpl. rewrite Hgs.
  split; [by rewrite length_insert |].
  intros j h Hj. destruct (decide (i = j)) as [<- | Hne].
  - exists g'. assert (h = g) as -> by congruence. split; [| done].
    apply list_lookup_insert_eq. by eapply lookup_lt_Some.
  - exists h. by rewrite list_lookup_insert_ne.
Qed.

(** One statement of a goroutine is one unit of work; no goroutine is
    added or lost, and each keeps its request. *)
Lemma step_run_work s s' i :
  step (EvRun i) s = Some s' →
  work s = S (work s') ∧
  length (goroutines s') = length (goroutines s) ∧
  ∀ j h, goroutines s !! j = Some h →
    ∃ h', goroutines s' !! j = Some h' ∧ goReq h' = goReq h.
Proof.
  simpl. destruct (goroutines s !! i) as [[req wg pc | req wg pc]|] eqn:Hi;
    [| | done].
  - destruct pc as [| resp | | |]; simpl.
    + destruct (createServiceForFunction (funcMeta req) s) as [r s1] eqn:Hc.
      intros [= <-].
      destruct (createServiceForFunction_frame _ _ _ _ Hc) as (_ & _ & Hgs & _).
      split; [by eapply work_goto | by eapply goto_reqs].
    + unfold send. destruct (chans s !! respChan req); [| done]. simpl.
      intros [= <-]. split; [by eapply work_goto | by eapply goto_reqs].
    + intros [= <-]. split; [by eapply work_goto | by eapply goto_reqs].
    + destruct (waitGroups s !! wg) as [[|n]|]; try done.
      intros [= <-]. split; [by eapply work_goto | by eapply goto_reqs].
    + done.
  - destruct pc as [| | resp |]; simpl.
    + destruct (waitGroups s !! wg) as [[|n]|]; try done.
      intros [= <-]. split; [by eapply work_goto | by eapply goto_reqs].
    + intros [= <-]. split; [by eapply work_goto | by eapply goto_reqs].
    + unfold send. destruct (chans s !! respChan req); [| done]. simpl.
      intros [= <-]. split; [by eapply work_goto | by eapply goto_reqs].
    + done.
Qed.

(** A creation goroutine never blocks. *)
Lemma creator_enabled s i req wg pc :
  Inv s → goroutines s !! i = Some (GoCreate req wg pc) →
  pc ≠ CreateExited → is_Some (step (EvRun i) s).
Proof.
  intros (Hch & Hwg & Hmk) Hi Hpc. simpl. rewrite Hi.
  destruct pc as [| resp | | |]; simpl.
  - destruct (createServiceForFunction _ _). eauto.
  - destruct (chans_sent _ _ Hch _ _ Hi) as (q & Hq & _).
    pose proof (chans_own _ _ Hch _ _ Hi) as Ho. simpl in Ho.
    unfold send. rewrite Ho, Hq. simpl. eauto.
  - eauto.
  - pose proof (wg_counter _ _ Hwg _ _ 1 Hi eq_refl) as H1. simpl in H1.
    rewrite H1. eauto.
  - done.
Qed.

(** A waiting goroutine blocks only at [wg.Wait()], and only while the
    goroutine that made the WaitGroup has not called [Done]; that one can
    run. *)
Lemma progress s i g :
  Inv s → goroutines s !! i = Some g → exited g = false →
  ∃ j, is_Some (step (EvRun j) s).
Proof.
  intros Hinv Hi Hex. destruct g as [req wg pc | req wg pc].
  - exists i. eapply creator_enabled; eauto. by destruct pc.
  - destruct Hinv as (Hch & Hwg & Hmk).
    destruct pc as [| | resp |]; [| | | done].
    + pose proof (wg_bound _ _ Hwg _ _ Hi) as Hlt. simpl in Hlt.
      destruct (waitGroups s !! wg) as [[|n]|] eqn:Hn.
      * exists i. simpl. rewrite Hi. simpl. rewrite Hn. eauto.
      * destruct (wg_made _ _ Hwg wg Hlt) as (j & h & Hj & Hw & Hg).
        destruct h as [req' wg' pc' |]; [| done]. simpl in Hg. subst wg'.
        exists j. eapply creator_enabled; eauto; [done |].
        intros ->. pose proof (wg_counter _ _ Hwg _ _ 0 Hj eq_refl) as H0.
        simpl in H0. congruence.
      * apply lookup_ge_None in Hn. lia.
    + exists i. simpl. rewrite Hi. simpl. eauto.
    + exists i. simpl. rewrite Hi. simpl.
      destruct (chans_sent _ _ Hch _ _ Hi) as (q & Hq & _).
      pose proof (chans_own _ _ Hch _ _ Hi) as Ho. simpl in Ho.
      unfold send. rewrite Ho, Hq. simpl. eauto.
Qed.

Lemma work_zero_exited s i g :
  work s = 0 → goroutines s !! i = Some g → exited g = true.
Proof.
  intros Hw Hi. apply list_elem_of_lookup_2 in Hi.
  pose proof (sum_list_with_in _ remaining _ Hi) as Hle.
  unfold work in Hw. destruct g as [? ? []|? ? []]; simpl in *; done || lia.
Qed.

Lemma work_pos_unexited s :
  0 < work s → ∃ i g, goroutines s !! i = Some g ∧ exited g = false.
Proof.
  unfold work. induction (goroutines s) as [|g gs IH]; simpl; [lia |].
  intros Hpos. destruct (exited g) eqn:Hex.
  - destruct IH as (i & h & Hi & Hh).
    { destruct g as [? ? []|? ? []]; simpl in *; done || lia. }
    exists (S i), h. done.
  - exists 0, g. done.
Qed.

(** From a consistent state the goroutines launched so far can all be run
    to their end, in as many steps as they have statements left. *)
Lemma drain n : ∀ s,
  Inv s → work s = n →
  ∃ sched s',
    length sched = n ∧ run (EvRun <$> sched) s = Some s' ∧
    Inv s' ∧ work s' = 0 ∧
    length (goroutines s') = length (goroutines s) ∧
    ∀ j h, goroutines s !! j = Some h →
      ∃ h', goroutines s' !! j = Some h' ∧ goReq h' = goReq h.
Proof.
  induction n as [|n IH]; intros s Hinv Hw.
  - exists [], s. simpl. do 5 (split; [done |]). eauto.
  - destruct (work_pos_unexited s) as (i & g & Hi & Hex); [lia |].
    destruct (progress s i g Hinv Hi Hex) as (j & s1 & Hstep).
    destruct (step_run_work _ _ _ Hstep) as (Hw1 & Hlen1 & Hreq1).
    destruct (IH s1) as (sched & s' & Hl & Hrun & Hinv' & Hw' & Hlen & Hreq).
    { by eapply Inv_step. }
    { lia. }
    exists (j :: sched), s'. rewrite fmap_cons, run_cons, Hstep. simpl.
    split; [lia |]. do 3 (split; [done |]). split; [congruence |].
    intros k h Hk. destruct (Hreq1 _ _ Hk) as (h1 & Hk1 & Hr1).
    destruct (Hreq _ _ Hk1) as (h' & Hk' & Hr'). exists h'.
    split; [done | congruence].
Qed.


(** Any run of goroutine steps uses up as much work as it has steps and
    keeps every goroutine with its request. *)
Lemma run_goroutines_work sched : ∀ s s',
  Inv s → run (EvRun <$> sched) s = Some s' →
  Inv s' ∧ work s = length sched + work s' ∧
  ∀ j h, goroutines s !! j = Some h →
    ∃ h', goroutines s' !! j = Some h' ∧ goReq h' = goReq h.
Proof.
  induction sched as [|i sched IH]; intros s s' Hinv Hrun.
  - injection Hrun as <-. eauto.
  - rewrite fmap_cons, run_cons in Hrun.
    destruct (step (EvRun i) s) as [s1|] eqn:Hstep; [| done].
    simpl in Hrun.
    destruct (step_run_work _ _ _ Hstep) as (Hw1 & _ & Hreq1).
    destruct (IH s1 s') as (Hinv' & Hw & Hreq);
      [by eapply Inv_step | done |].
    split; [done |]. split; [simpl; lia |].
    intros k h Hk. destruct (Hreq1 _ _ Hk) as (h1 & Hk1 & Hr1).
    destruct (Hreq _ _ Hk1) as (h' & Hk' & Hr'). exists h'.
    split; [done | congruence].
Qed.

(** Once no statement is left, every request has its one response. *)
Lemma quiescent_delivered s i g :
  Inv s → work s = 0 → goroutines s !! i = Some g →
  exited g = true ∧ ∃ r, chans s !! respChan (goReq g) = Some [r].
Proof.
  intros (Hch & _ & _) Hw Hi.
  pose proof (work_zero_exited _ _ _ Hw Hi) as Hex. split; [done |].
  destruct (chans_sent _ _ Hch _ _ Hi) as (q & Hq & Hlq).
  rewrite (chans_own _ _ Hch _ _ Hi).
  assert (hasSent g = true) as Hs by (by destruct g as [? ? []|? ? []]).
  rewrite Hs in Hlq. destruct q as [|r [|]]; try done. eauto.
Qed.

(** *** The statements of the two goroutines, one by one *)

Lemma goto_lookup s i g' j :
  goroutines (goto i g' s) !! j =
    if decide (i = j ∧ i < length (goroutines s)) then Some g'
    else goroutines s !! j.
Proof.
  unfold goto. simpl. case_decide as Hd.
  - destruct Hd as [<- ?]. by apply list_lookup_insert_eq.
  - destruct (decide (i = j)) as [<- | ?].
    + rewrite list_insert_ge by lia. done.
    + by apply list_lookup_insert_ne.
Qed.

Lemma goto_lookup_eq s i g g' :
  goroutines s !! i = Some g → goroutines (goto i g' s) !! i = Some g'.
Proof.
  intros Hi. rewrite goto_lookup, decide_True; [done |].
  split; [done | by eapply lookup_lt_Some].
Qed.

Lemma goto_lookup_ne s i g' j :
  i ≠ j → goroutines (goto i g' s) !! j = goroutines s !! j.
Proof. intros Hne. rewrite goto_lookup, decide_False; [done | tauto]. Qed.

Ltac run_step H := rewrite run_cons, H; cbn [mbind option_bind].

(** After the step [Hstep], the goroutine stands at [g']. *)
Ltac at_state Hstep g' Hbefore Hafter :=
  match type of Hstep with
  | _ = Some ?S =>
      match type of Hbefore with
      | _ !! ?i = _ =>
          assert (goroutines S !! i = Some g') as Hafter
            by (eapply goto_lookup_eq; exact Hbefore)
      end
  end.

Lemma step_create s i req wg :
  goroutines s !! i = Some (GoCreate req wg AtCreate) →
  step (EvRun i) s =
    Some (goto i (GoCreate req wg
                    (AtSend (response id
                       (createServiceForFunction (funcMeta req) s).1)))
            (createServiceForFunction (funcMeta req) s).2).
Proof.
  intros Hi. simpl. rewrite Hi. simpl.
  by destruct (createServiceForFunction (funcMeta req) s).
Qed.

Lemma step_send s i g r :
  Inv s → goroutines s !! i = Some g → hasSent g = false →
  send (respChan (goReq g)) r s =
    Some (set_chans (<[i := [r]]> (chans s)) s).
Proof.
  intros (Hch & _ & _) Hi Hs. unfold send.
  rewrite (chans_own _ _ Hch _ _ Hi).
  destruct (chans_sent _ _ Hch _ _ Hi) as (q & -> & Hl). rewrite Hs in Hl.
  by destruct q.
Qed.

Lemma step_done s i req wg :
  Inv s → goroutines s !! i = Some (GoCreate req wg AtDone) →
  step (EvRun i) s =
    Some (goto i (GoCreate req wg CreateExited)
            (set_waitGroups (<[wg := 0]> (waitGroups s)) s)).
Proof.
  intros (_ & Hwg & _) Hi. simpl. rewrite Hi. simpl.
  pose proof (wg_counter _ _ Hwg _ _ 1 Hi eq_refl) as H1. simpl in H1.
  by rewrite H1.
Qed.

Lemma step_get s j req wg :
  goroutines s !! j = Some (GoWait req wg AtGetByFunction) →
  step (EvRun j) s =
    Some (goto j (GoWait req wg
                    (AtSendWaited (registryAnswer (ext s) (funcMeta req))))
            (log_call (CallGetByFunction (funcMeta req)) s)).
Proof. intros Hj. simpl. by rewrite Hj. Qed.


Lemma step_send_create s i req wg r :
  Inv s → goroutines s !! i = Some (GoCreate req wg (AtSend r)) →
  step (EvRun i) s =
    Some (goto i (GoCreate req wg AtDelete)
            (set_chans (<[i := [r]]> (chans s)) s)).
Proof.
  intros Hinv Hi. pose proof (step_send s i _ r Hinv Hi eq_refl) as Hs.
  simpl in Hs. simpl. rewrite Hi. simpl. by rewrite Hs.
Qed.

Lemma step_delete s i req wg :
  goroutines s !! i = Some (GoCreate req wg AtDelete) →
  step (EvRun i) s =
    Some (goto i (GoCreate req wg AtDone)
            (set_fsCreateWg
               (delete (CacheKey (funcMeta req)) (fsCreateWg s)) s)).
Proof. intros Hi. simpl. by rewrite Hi. Qed.

Lemma step_wait s j req wg :
  goroutines s !! j = Some (GoWait req wg AtWait) →
  step (EvRun j) s =
    match waitGroups s !! wg with
    | Some 0 => Some (goto j (GoWait req wg AtGetByFunction) s)
    | _ => None
    end.
Proof. intros Hj. simpl. by rewrite Hj. Qed.

Lemma step_send_wait s j req wg r :
  Inv s → goroutines s !! j = Some (GoWait req wg (AtSendWaited r)) →
  step (EvRun j) s =
    Some (goto j (GoWait req wg WaitExited)
            (set_chans (<[j := [r]]> (chans s)) s)).
Proof.
  intros Hinv Hj. pose proof (step_send s j _ r Hinv Hj eq_refl) as Hs.
  simpl in Hs. simpl. rewrite Hj. simpl. by rewrite Hs.
Qed.

(** The creation goroutine, from its first statement to its end. *)
Lemma creator_runs s i req wg :
  Inv s → goroutines s !! i = Some (GoCreate req wg AtCreate) →
  ∃ s',
    run (EvRun <$> [i; i; i; i]) s = Some s' ∧ Inv s' ∧
    goroutines s' = <[i := GoCreate req wg CreateExited]> (goroutines s) ∧
    chans s' =
      <[i := [response id (createServiceForFunction (funcMeta req) s).1]]>
        (chans s) ∧
    waitGroups s' = <[wg := 0]> (waitGroups s) ∧
    fsCreateWg s' = delete (CacheKey (funcMeta req)) (fsCreateWg s) ∧
    ext s' = ext (createServiceForFunction (funcMeta req) s).2.
Proof.
  intros Hinv Hi.
  destruct (createServiceForFunction (funcMeta req) s) as [r sc] eqn:Hc.
  destruct (createServiceForFunction_frame _ _ _ _ Hc) as (Ht & Hw & Hgs & Hcs).
  (* line 92 *)
  pose proof (step_create _ _ _ _ Hi) as H1. rewrite Hc in H1.
  cbn [fst snd] in H1.
  pose proof (Inv_step _ _ _ H1 Hinv) as Hinv1.
  assert (goroutines sc !! i = Some (GoCreate req wg AtCreate)) as Hi0
    by (by rewrite Hgs).
  pose proof (goto_lookup_eq _ _ _ (GoCreate req wg (AtSend (response id r)))
                Hi0) as Hi1.
  (* line 93 *)
  pose proof (step_send_create _ _ _ _ _ Hinv1 Hi1) as H2.
  pose proof (Inv_step _ _ _ H2 Hinv1) as Hinv2.
  at_state H2 (GoCreate req wg AtDelete) Hi1 Hi2.
  (* line 97 *)
  pose proof (step_delete _ _ _ _ Hi2) as H3.
  pose proof (Inv_step _ _ _ H3 Hinv2) as Hinv3.
  at_state H3 (GoCreate req wg AtDone) Hi2 Hi3.
  (* line 98 *)
  pose proof (step_done _ _ _ _ Hinv3 Hi3) as H4.
  pose proof (Inv_step _ _ _ H4 Hinv3) as Hinv4.
  eexists. split.
  { rewrite !fmap_cons. run_step H1. run_step H2. run_step H3. run_step H4.
    reflexivity. }
  split; [done |].
  simpl. rewrite Hgs, Hcs, Hw, Ht.
  rewrite !list_insert_insert_eq. done.
Qed.

(** The waiting goroutine, once the counter of its WaitGroup is zero. *)
Lemma waiter_runs s j req wg :
  Inv s → goroutines s !! j = Some (GoWait req wg AtWait) →
  waitGroups s !! wg = Some 0 →
  ∃ s',
    run (EvRun <$> [j; j; j]) s = Some s' ∧ Inv s' ∧
    goroutines s' = <[j := GoWait req wg WaitExited]> (goroutines s) ∧
    chans s' = <[j := [registryAnswer (ext s) (funcMeta req)]]> (chans s) ∧
    waitGroups s' = waitGroups s ∧ fsCreateWg s' = fsCreateWg s ∧
    ext s' = ext s ∧
    calls s' = calls s ++ [CallGetByFunction (funcMeta req)].
Proof.
  intros Hinv Hj Hzero.
  (* line 104 *)
  pose proof (step_wait _ _ _ _ Hj) as H1. rewrite Hzero in H1.
  pose proof (Inv_step _ _ _ H1 Hinv) as Hinv1.
  pose proof (goto_lookup_eq _ _ _ (GoWait req wg AtGetByFunction) Hj) as Hj1.
  (* line 107 *)
  pose proof (step_get _ _ _ _ Hj1) as H2.
  pose proof (Inv_step _ _ _ H2 Hinv1) as Hinv2.
  at_state H2
    (GoWait req wg (AtSendWaited (registryAnswer (ext s) (funcMeta req))))
    Hj1 Hj2.
  (* line 108 *)
  pose proof (step_send_wait _ _ _ _ _ Hinv2 Hj2) as H3.
  pose proof (Inv_step _ _ _ H3 Hinv2) as Hinv3.
  eexists. split.
  { rewrite !fmap_cons. run_step H1. run_step H2. run_step H3.
    reflexivity. }
  split; [done |].
  simpl. rewrite !list_insert_insert_eq. done.
Qed.


(** *** What the coordinator guarantees *)

Lemma inFlight_unique s k i j g g' wg wg' :
  Inv s →
  goroutines s !! i = Some g → goroutines s !! j = Some g' →
  inFlight k g = Some wg → inFlight k g' = Some wg' → i = j.
Proof.
  intros (_ & Hwg & Hmk) Hi Hj Hf Hf'.
  assert (fsCreateWg s !! k = Some wg) as H1 by (apply Hmk; eauto).
  assert (fsCreateWg s !! k = Some wg') as H2 by (apply Hmk; eauto).
  apply inFlight_Some in Hf as (Hw & Hg & _).
  apply inFlight_Some in Hf' as (Hw' & Hg' & _).
  eapply (wg_owner _ _ Hwg); eauto. congruence.
Qed.

Lemma submit_duplicate s m wg :
  fsCreateWg s !! CacheKey m = Some wg →
  ∃ s',
    step (EvSubmit m) s = Some s' ∧
    goroutines s' =
      goroutines s ++ [GoWait (mkRequest m (length (chans s))) wg AtWait] ∧
    chans s' = chans s ++ [[]] ∧
    fsCreateWg s' = fsCreateWg s ∧ waitGroups s' = waitGroups s ∧
    calls s' = calls s ∧ ext s' = ext s.
Proof.
  intros Hk. eexists. split; [reflexivity |].
  unfold serveCreateFuncServices. simpl. rewrite Hk. done.
Qed.

Lemma submit_miss s m :
  fsCreateWg s !! CacheKey m = None →
  ∃ s',
    step (EvSubmit m) s = Some s' ∧
    goroutines s' =
      goroutines s ++
        [GoCreate (mkRequest m (length (chans s))) (length (waitGroups s))
           AtCreate] ∧
    chans s' = chans s ++ [[]] ∧
    fsCreateWg s' = <[CacheKey m := length (waitGroups s)]> (fsCreateWg s) ∧
    waitGroups s' = waitGroups s ++ [1].
Proof.
  intros Hk. eexists. split; [reflexivity |].
  unfold serveCreateFuncServices. simpl. rewrite Hk. done.
Qed.

(** C2, as the code has it: the [delete] of line 97 and the [Done] of
    line 98 are two steps of the creation goroutine, taken in that order
    after the response has been sent, and nothing excludes the admission
    loop between them.  After the first the key has no marker while the
    counter of the WaitGroup is still 1; a request for the key received
    then is taken for the first one and gets a marker and a goroutine of
    its own; the second step alone sets the counter to 0. *)
Theorem marker_removed_before_signal s i req wg :
  reachable s →
  goroutines s !! i = Some (GoCreate req wg AtDelete) →
  ∃ s1,
    step (EvRun i) s = Some s1 ∧
    fsCreateWg s1 = delete (CacheKey (funcMeta req)) (fsCreateWg s) ∧
    waitGroups s1 = waitGroups s ∧ waitGroups s1 !! wg = Some 1 ∧
    goroutines s1 !! i = Some (GoCreate req wg AtDone) ∧
    (∃ r, chans s !! respChan req = Some [r]) ∧
    (∃ s2,
       step (EvSubmit (funcMeta req)) s1 = Some s2 ∧
       goroutines s2 =
         goroutines s1 ++
           [GoCreate (mkRequest (funcMeta req) (length (chans s1)))
              (length (waitGroups s1)) AtCreate] ∧
       fsCreateWg s2 !! CacheKey (funcMeta req) =
         Some (length (waitGroups s1)) ∧
       waitGroups s2 !! wg = Some 1) ∧
    (∃ s3,
       step (EvRun i) s1 = Some s3 ∧
       waitGroups s3 = <[wg := 0]> (waitGroups s1) ∧
       fsCreateWg s3 = fsCreateWg s1).
Proof.
  intros Hreach Hi. pose proof (reachable_Inv _ Hreach) as Hinv.
  pose proof (step_delete _ _ _ _ Hi) as H1.
  pose proof (Inv_step _ _ _ H1 Hinv) as Hinv1.
  at_state H1 (GoCreate req wg AtDone) Hi Hi1.
  destruct Hinv as (Hch & Hwg & Hmk).
  pose proof (wg_counter _ _ Hwg _ _ 1 Hi eq_refl) as Hone. simpl in Hone.
  eexists. split; [exact H1 |].
  split; [done |]. split; [done |]. split; [done |]. split; [done |].
  split; [| split].
  - destruct (chans_sent _ _ Hch _ _ Hi) as (q & Hq & Hl).
    pose proof (chans_own _ _ Hch _ _ Hi) as Ho. simpl in Ho, Hl.
    rewrite Ho, Hq. destruct q as [|r [|]]; try done. eauto.
  - edestruct (submit_miss
                 (goto i (GoCreate req wg AtDone)
                    (set_fsCreateWg
                       (delete (CacheKey (funcMeta req)) (fsCreateWg s)) s))
                 (funcMeta req)) as (s2 & Hs2 & Hg2 & _ & Ht2 & Hw2).
    { simpl. apply lookup_delete_eq. }
    exists s2. split; [done |]. split; [done |]. split.
    + rewrite Ht2. apply lookup_insert_eq.
    + rewrite Hw2. simpl. by apply lookup_app_l_Some.
  - pose proof (step_done _ _ _ _ Hinv1 Hi1) as H3.
    eexists. split; [exact H3 |]. done.
Qed.

Lemma registryAnswer_shape (x : X) m :
  (∃ f, registryAnswer x m = mkResponse (Some f) None) ∨
  (∃ e, registryAnswer x m = mkResponse None (Some e)).
Proof.
  unfold registryAnswer. destruct (fsCache_GetByFunction x m); simpl; eauto.
Qed.

(** What a creation goroutine can answer: a service, an error, or, when
    the variable read [DEPLOY] at the call, nothing at all. *)
Lemma createServiceForFunction_shape m s0 :
  (∃ f, response id (createServiceForFunction m s0).1
          = mkResponse (Some f) None) ∨
  (∃ e, response id (createServiceForFunction m s0).1
          = mkResponse None (Some e)) ∨
  (response id (createServiceForFunction m s0).1 = mkResponse None None ∧
   Getenv "EXECUTOR_BACKEND" s0 = "DEPLOY"%string).
Proof.
  unfold createServiceForFunction, bind.
  destruct (getFunctionEnv m s0) as [[env|e] s1] eqn:He; simpl; [| eauto].
  pose proof (getFunctionEnv_environ _ _ _ _ He) as Henv.
  destruct (decide (Getenv "EXECUTOR_BACKEND" s1 = "DEPLOY"%string))
    as [Hd | Hd].
  - rewrite dispatchBackend_DEPLOY by done. simpl. right. right.
    split; [done |]. unfold Getenv in *. by rewrite <- Henv.
  - rewrite dispatchBackend_default by done.
    unfold poolBackend, bind, GetPool, GetFuncSvc.
    destruct (gpm_GetPool (ext s1) env) as [[pool|e] x1]; simpl; [| eauto].
    destruct (pool_GetFuncSvc x1 pool m) as [[fsvc|e] x2]; simpl; eauto.
Qed.


Lemma registryAnswer_not_empty (x : X) m :
  registryAnswer x m ≠ mkResponse None None.
Proof.
  unfold registryAnswer. by destruct (fsCache_GetByFunction x m).
Qed.

(** C4, as the code has it: a goroutine waiting on the WaitGroup of a
    creation goroutine cannot pass [wg.Wait()] before that goroutine is
    done, and is released by it whether or not the creation failed: the
    four statements of the creation goroutine always run, the last being
    [Done]; the three of the waiting goroutine then run and send on its
    channel what the function-service cache answers at that moment for its
    identity, the service it holds or its own lookup error, never a nil
    service with a nil error.  The answer does not say whether the joined
    creation failed; the error of a failed creation goes to the request
    that triggered it. *)
Theorem waiter_released_with_registry_answer s i j creq wreq wg :
  reachable s →
  goroutines s !! i = Some (GoCreate creq wg AtCreate) →
  goroutines s !! j = Some (GoWait wreq wg AtWait) →
  step (EvRun j) s = None ∧
  ∃ s',
    run (EvRun <$> [i; i; i; i; j; j; j]) s = Some s' ∧
    waitGroups s' !! wg = Some 0 ∧
    chans s' !! respChan creq =
      Some [response id (createServiceForFunction (funcMeta creq) s).1] ∧
    chans s' !! respChan wreq =
      Some [registryAnswer
              (ext (createServiceForFunction (funcMeta creq) s).2)
              (funcMeta wreq)] ∧
    registryAnswer (ext (createServiceForFunction (funcMeta creq) s).2)
      (funcMeta wreq) ≠ mkResponse None None ∧
    (∀ e, (createServiceForFunction (funcMeta creq) s).1 = Err e →
       chans s' !! respChan creq = Some [mkResponse None (Some e)]).
Proof.
  intros Hreach Hi Hj. pose proof (reachable_Inv _ Hreach) as Hinv.
  assert (i ≠ j) as Hne by (intros ->; congruence).
  pose proof Hinv as (Hch & Hwg & _).
  pose proof (wg_counter _ _ Hwg _ _ 1 Hi eq_refl) as Hone. simpl in Hone.
  pose proof (chans_own _ _ Hch _ _ Hi) as Hoi.
  pose proof (chans_own _ _ Hch _ _ Hj) as Hoj. simpl in Hoi, Hoj.
  assert (i < length (chans s) ∧ j < length (chans s)) as [Hli Hlj].
  { rewrite (chans_length _ _ Hch). split; by eapply lookup_lt_Some. }
  split.
  { rewrite (step_wait _ _ _ _ Hj), Hone. done. }
  destruct (creator_runs s i creq wg Hinv Hi)
    as (s1 & Hrun1 & Hinv1 & Hgs1 & Hcs1 & Hw1 & _ & Hx1).
  assert (goroutines s1 !! j = Some (GoWait wreq wg AtWait)) as Hj1.
  { rewrite Hgs1. by rewrite list_lookup_insert_ne. }
  assert (waitGroups s1 !! wg = Some 0) as Hzero.
  { rewrite Hw1. apply list_lookup_insert_eq. by eapply lookup_lt_Some. }
  destruct (waiter_runs s1 j wreq wg Hinv1 Hj1 Hzero)
    as (s' & Hrun2 & _ & _ & Hcs2 & Hw2 & _ & _ & _).
  exists s'. split.
  { change [i; i; i; i; j; j; j] with ([i; i; i; i] ++ [j; j; j]).
    rewrite fmap_app, run_app, Hrun1. done. }
  split; [by rewrite Hw2 |].
  rewrite Hcs2, Hcs1, Hx1, Hoi, Hoj.
  assert (<[j:=[registryAnswer
                  (ext (createServiceForFunction (funcMeta creq) s).2)
                  (funcMeta wreq)]]>
            (<[i:=[response id
                     (createServiceForFunction (funcMeta creq) s).1]]>
               (chans s)) !! i =
          Some [response id (createServiceForFunction (funcMeta creq) s).1])
    as Hci.
  { rewrite list_lookup_insert_ne by done. by apply list_lookup_insert_eq. }
  split; [done |]. split; [| split].
  - apply list_lookup_insert_eq. by rewrite length_insert.
  - apply registryAnswer_not_empty.
  - intros e He. rewrite Hci, He. done.
Qed.



End Coordinator.

(** * Further properties *)

(** ** The methods *)

Section MethodProperties.
Context {X : Type} `{!Collaborators X}.
Implicit Types (s : State X) (m : ObjectMeta) (env : Environment).

(** What resolution leaves alone and what it calls: the collaborators,
    the clock and the process environment are unchanged, the cache keeps
    its expiry and every entry under another key, and at most two calls
    are made, both to the metadata client. *)
Lemma getFunctionEnv_effects m s r s' :
  getFunctionEnv m s = (r, s') →
  ext s' = ext s ∧ now s' = now s ∧ environ s' = environ s ∧
  ctimeExpiry (functionEnv s') = ctimeExpiry (functionEnv s) ∧
  (∀ k, k ≠ CacheKey m →
     entries (functionEnv s') !! k = entries (functionEnv s) !! k) ∧
  ∃ l, calls s' = calls s ++ l ∧ length l ≤ 2 ∧
       Forall (λ c, isMetadataCall c = true) l.
Proof.
  unfold getFunctionEnv, bind, fissionClient_Functions_Get,
    fissionClient_Environments_Get, of_sum.
  destruct (Cache_Get _ _ _).
  { intros [= <- <-]. do 5 (split; [done |]). exists []. rewrite app_nil_r.
    split; [done |]. split; [simpl; lia | constructor]. }
  destruct (Functions_Get _ _ _) as [f|]; simpl.
  2:{ intros [= <- <-]. simpl. do 5 (split; [done |]). eexists.
      split; [done |]. split; [simpl; lia |]. repeat constructor. }
  destruct (Environments_Get _ _ _); simpl; intros [= <- <-]; simpl.
  - do 4 (split; [done |]). split.
    + intros k Hk. by rewrite lookup_insert_ne.
    + eexists. rewrite <- app_assoc. split; [done |].
      split; [simpl; lia |]. repeat constructor.
  - do 5 (split; [done |]). eexists. rewrite <- app_assoc. split; [done |].
    split; [simpl; lia |]. repeat constructor.
Qed.

(** A resolution that fails stores nothing. *)
Lemma getFunctionEnv_Err_cache m s e s1 :
  getFunctionEnv m s = (Err e, s1) → functionEnv s1 = functionEnv s.
Proof.
  unfold getFunctionEnv, bind, fissionClient_Functions_Get,
    fissionClient_Environments_Get, of_sum.
  destruct (Cache_Get _ _ _); [done |].
  destruct (Functions_Get _ _ _) as [f|]; simpl; [| by intros [= _ <-]].
  destruct (Environments_Get _ _ _); simpl; [done | by intros [= _ <-]].
Qed.

(** Resolution reads the metadata and writes one cache entry; it touches
    nothing else. *)
Theorem getFunctionEnv_touches_only_its_entry m s r s' :
  getFunctionEnv m s = (r, s') →
  ext s' = ext s ∧ now s' = now s ∧ environ s' = environ s ∧
  sameBookkeeping s s' ∧
  ctimeExpiry (functionEnv s') = ctimeExpiry (functionEnv s) ∧
  (∀ k, k ≠ CacheKey m →
     entries (functionEnv s') !! k = entries (functionEnv s) !! k) ∧
  ∃ l, calls s' = calls s ++ l ∧ length l ≤ 2 ∧
       Forall (λ c, isMetadataCall c = true) l.
Proof.
  intros Hrun.
  pose proof (getFunctionEnv_frame _ _ _ _ Hrun) as Hb.
  destruct (getFunctionEnv_effects _ _ _ _ Hrun)
    as (Hx & Hn & He & Hexp & Hother & Hcalls).
  do 3 (split; [done |]). split; [exact Hb |].
  split; [exact Hexp |]. split; [exact Hother | exact Hcalls].
Qed.

(** After a resolution that returned an environment, hit or miss, the
    cache holds that environment under the function's key, and the
    resolution time lies inside the entry's expiry. *)
Lemma getFunctionEnv_Ok_cached m s env s' :
  getFunctionEnv m s = (Ok env, s') →
  ∃ ct, entries (functionEnv s') !! CacheKey m = Some (env, ct) ∧
        (now s < ct + ctimeExpiry (functionEnv s') ∨ ct = now s)%Z ∧
        (ct = now s ∨ entries (functionEnv s) !! CacheKey m = Some (env, ct)).
Proof.
  unfold getFunctionEnv, bind, fissionClient_Functions_Get,
    fissionClient_Environments_Get, of_sum.
  destruct (Cache_Get _ _ _) as [v|] eqn:Hget.
  { intros [= <- <-]. apply Cache_Get_inl in Hget as (ct & Hent & Hlt).
    exists ct. eauto. }
  destruct (Functions_Get _ _ _) as [f|]; simpl; [| done].
  destruct (Environments_Get _ _ _); simpl; [| done].
  intros [= <- <-]. simpl. exists (now s).
  rewrite lookup_insert_eq. eauto.
Qed.


Lemma getFunctionEnv_one_fetch_window_aux m s e f env :
  Cache_Get (functionEnv s) (CacheKey m) (now s) = inr e →
  Functions_Get (ext s) (Namespace m) (Name m) = inl f →
  Environments_Get (ext s) (ref_Namespace (fn_Spec_Environment f))
    (ref_Name (fn_Spec_Environment f)) = inl env →
  ∃ s1,
    getFunctionEnv m s = (Ok env, s1) ∧
    entries (functionEnv s1) !! CacheKey m = Some (env, now s) ∧
    ctimeExpiry (functionEnv s1) = ctimeExpiry (functionEnv s) ∧
    ∀ ws,
      Forall (λ w, (w.1 < now s + ctimeExpiry (functionEnv s))%Z) ws →
      ∃ s2,
        resolveRepeatedly m ws s1 = (replicate (length ws) (Ok env), s2) ∧
        calls s2 = calls s1 ∧ functionEnv s2 = functionEnv s1.
Proof.
  intros Hc Hf He. eexists. split; [by eapply getFunctionEnv_miss |].
  split; [simpl; by rewrite lookup_insert_eq |]. split; [done |].
  intros ws Hall. apply resolveRepeatedly_hits with (t0 := now s).
  - simpl. by rewrite lookup_insert_eq.
  - done.
Qed.

Lemma dispatchBackend_keeps m env s r s' :
  dispatchBackend m env s = (r, s') →
  functionEnv s' = functionEnv s ∧ now s' = now s ∧ environ s' = environ s.
Proof.
  unfold dispatchBackend, poolBackend, bind, GetPool, GetFuncSvc, of_sum.
  destruct (String.eqb _ _); [by intros [= <- <-] |].
  destruct (gpm_GetPool _ _) as [[pool|] x1]; simpl; [| by intros [= <- <-]].
  destruct (pool_GetFuncSvc _ _ _) as [[fsvc|] x2]; simpl;
    by intros [= <- <-].
Qed.

(** A resolution failure ends [createServiceForFunction] there: the error
    is returned whatever [EXECUTOR_BACKEND] holds, [DEPLOY] included; the
    pool manager is not called, and collaborators and cache are as before. *)
Theorem resolution_failure_aborts_creation m s e s1 :
  getFunctionEnv m s = (Err e, s1) →
  createServiceForFunction m s = (Err e, s1) ∧
  response id (createServiceForFunction m s).1 = mkResponse None (Some e) ∧
  ext s1 = ext s ∧ functionEnv s1 = functionEnv s ∧
  ∃ l, calls s1 = calls s ++ l ∧ Forall (λ c, isMetadataCall c = true) l.
Proof.
  intros Hres.
  assert (createServiceForFunction m s = (Err e, s1)) as Hc
    by (unfold createServiceForFunction, bind; by rewrite Hres).
  destruct (getFunctionEnv_effects _ _ _ _ Hres)
    as (Hx & _ & _ & _ & _ & l & Hl & _ & Hall).
  split; [done |]. rewrite Hc. split; [done |]. split; [done |].
  split; [by eapply getFunctionEnv_Err_cache | eauto].
Qed.

(** [createServiceForFunction] makes no error of its own: an error it
    returns is the error one of its four collaborator calls returned. *)
Theorem createServiceForFunction_error_provenance m s e s' :
  createServiceForFunction m s = (Err e, s') →
  Functions_Get (ext s) (Namespace m) (Name m) = inr e ∨
  (∃ f, Functions_Get (ext s) (Namespace m) (Name m) = inl f ∧
        Environments_Get (ext s) (ref_Namespace (fn_Spec_Environment f))
          (ref_Name (fn_Spec_Environment f)) = inr e) ∨
  (∃ env s1, getFunctionEnv m s = (Ok env, s1) ∧
             (gpm_GetPool (ext s) env).1 = inr e) ∨
  (∃ env s1 pool x1,
     getFunctionEnv m s = (Ok env, s1) ∧
     gpm_GetPool (ext s) env = (inl pool, x1) ∧
     (pool_GetFuncSvc x1 pool m).1 = inr e).
Proof.
  unfold createServiceForFunction, bind.
  destruct (getFunctionEnv m s) as [[env|e1] s1] eqn:Hres.
  - intros Hd. right. right.
    destruct (getFunctionEnv_effects _ _ _ _ Hres)
      as (Hx & _).
    revert Hd. unfold dispatchBackend.
    destruct (String.eqb _ _); [done |].
    unfold poolBackend, bind, GetPool, GetFuncSvc, of_sum. rewrite Hx.
    destruct (gpm_GetPool (ext s) env) as [[pool|e2] x1] eqn:Hp; simpl.
    + destruct (pool_GetFuncSvc x1 pool m) as [[fsvc|e3] x2] eqn:Hs; simpl;
        [done |].
      intros [= -> _]. right. exists env, s1, pool, x1.
      rewrite Hs. done.
    + intros [= -> _]. left. exists env, s1. rewrite Hp. done.
  - intros [= -> _]. revert Hres.
    unfold getFunctionEnv, bind, fissionClient_Functions_Get,
      fissionClient_Environments_Get, of_sum.
    destruct (Cache_Get _ _ _); [done |].
    destruct (Functions_Get _ _ _) as [f|]; simpl.
    + destruct (Environments_Get _ _ _) eqn:He; simpl; [done |].
      intros [= -> _]. right. left. eauto.
    + intros [= -> _]. by left.
Qed.

(** A service comes out of [createServiceForFunction] only as the pool
    manager made it: the variable did not read [DEPLOY], [GetPool] gave a
    pool for the resolved environment, and [GetFuncSvc] on that pool
    returned this very service; the two pool-manager calls are the last
    ones logged. *)
Theorem createServiceForFunction_service_provenance m s fsvc s' :
  createServiceForFunction m s = (Ok (Some fsvc), s') →
  ∃ env s1 pool x1,
    getFunctionEnv m s = (Ok env, s1) ∧
    Getenv "EXECUTOR_BACKEND" s ≠ "DEPLOY"%string ∧
    gpm_GetPool (ext s) env = (inl pool, x1) ∧
    pool_GetFuncSvc x1 pool m = (inl fsvc, ext s') ∧
    calls s' = calls s1 ++ [CallGetPool env; CallGetFuncSvc pool m].
Proof.
  unfold createServiceForFunction, bind.
  destruct (getFunctionEnv m s) as [[env|e1] s1] eqn:Hres; [| done].
  destruct (getFunctionEnv_effects _ _ _ _ Hres)
    as (Hx & _ & Henv & _).
  unfold dispatchBackend.
  destruct (String.eqb_spec (Getenv "EXECUTOR_BACKEND" s1) "DEPLOY");
    [done |].
  unfold poolBackend, bind, GetPool, GetFuncSvc, of_sum. rewrite Hx.
  destruct (gpm_GetPool (ext s) env) as [[pool|e2] x1] eqn:Hp; simpl;
    [| done].
  destruct (pool_GetFuncSvc x1 pool m) as [[f|e3] x2] eqn:Hs; simpl;
    [| done].
  intros [= <- <-]. exists env, s1, pool, x1. simpl.
  split; [done |]. split.
  { unfold Getenv in *. by rewrite <- Henv. }
  split; [done |]. split; [done |]. by rewrite <- app_assoc.
Qed.

(** What the backend does, failure included, leaves the environment
    cached: once resolution has returned an environment, the cache holds
    it after the whole call, and until that entry expires a resolution for
    the function returns it without any call. *)
Theorem backend_outcome_keeps_environment_cached m s env s1 r s' :
  getFunctionEnv m s = (Ok env, s1) →
  createServiceForFunction m s = (r, s') →
  functionEnv s' = functionEnv s1 ∧
  ∃ ct,
    entries (functionEnv s') !! CacheKey m = Some (env, ct) ∧
    ∀ t e x, (t < ct + ctimeExpiry (functionEnv s'))%Z →
      getFunctionEnv m (set_world t e x s') = (Ok env, set_world t e x s').
Proof.
  intros Hres Hc. unfold createServiceForFunction, bind in Hc.
  rewrite Hres in Hc. destruct (dispatchBackend_keeps _ _ _ _ _ Hc) as (Hf & _).
  split; [done |].
  destruct (getFunctionEnv_Ok_cached _ _ _ _ Hres) as (ct & Hent & _).
  exists ct. rewrite Hf. split; [done |].
  intros t e x Ht. apply getFunctionEnv_hit. apply Cache_Get_inl.
  exists ct. simpl. by rewrite Hf.
Qed.


(** Hits do not renew an entry: after a miss has stored the environment
    at [now s], any number of resolutions inside the expiry leave the
    entry dated as it was, and a resolution after the expiry has elapsed
    fetches the function again. *)
Theorem expired_entry_is_fetched_again m s e f env ws t x :
  Cache_Get (functionEnv s) (CacheKey m) (now s) = inr e →
  Functions_Get (ext s) (Namespace m) (Name m) = inl f →
  Environments_Get (ext s) (ref_Namespace (fn_Spec_Environment f))
    (ref_Name (fn_Spec_Environment f)) = inl env →
  Forall (λ w, (w.1 < now s + ctimeExpiry (functionEnv s))%Z) ws →
  (now s + ctimeExpiry (functionEnv s) < t)%Z →
  ∃ s1 s2 r s3 rest,
    getFunctionEnv m s = (Ok env, s1) ∧
    resolveRepeatedly m ws s1 = (replicate (length ws) (Ok env), s2) ∧
    entries (functionEnv s2) !! CacheKey m = Some (env, now s) ∧
    getFunctionEnv m (set_world t (environ s2) x s2) = (r, s3) ∧
    calls s3 = calls s2 ++ CallFunctionsGet (Namespace m) (Name m) :: rest.
Proof.
  intros Hc Hf He Hws Ht.
  destruct (getFunctionEnv_one_fetch_window_aux m s e f env Hc Hf He)
    as (s1 & Hrun1 & Hent1 & Hexp1 & Hwin).
  destruct (Hwin ws Hws) as (s2 & Hrun2 & _ & Hf2).
  exists s1, s2. 
  assert (Cache_Get (functionEnv s2) (CacheKey m) t = inr "not found"%string)
    as Hmiss.
  { unfold Cache_Get. rewrite Hf2, Hent1, Hexp1.
    destruct (Z.ltb_spec t (now s + ctimeExpiry (functionEnv s)));
      [lia | done]. }
  unfold getFunctionEnv at 2. simpl. rewrite Hmiss.
  unfold bind, fissionClient_Functions_Get, fissionClient_Environments_Get,
    of_sum. simpl.
  destruct (Functions_Get x (Namespace m) (Name m)) as [f'|e2]; simpl.
  - destruct (Environments_Get x _ _) as [env'|e3]; simpl;
      do 3 eexists; (split; [done |]); (split; [done |]);
      (split; [by rewrite Hf2 |]); (split; [reflexivity |]); simpl;
      by rewrite <- app_assoc.
  - do 3 eexists. split; [done |]. split; [done |].
    split; [by rewrite Hf2 |]. split; [reflexivity |]. done.
Qed.

End MethodProperties.

(** ** Runs of the coordinator *)

Section RunProperties.
Context {X : Type} `{!Collaborators X}.
Implicit Types (s : State X) (g : Goroutine) (m : ObjectMeta).

(** In a consistent state every step of a goroutine is one of [Moves]. *)
Lemma step_run_Moves s s' i :
  Inv s → step (EvRun i) s = Some s' →
  ∃ g g', goroutines s !! i = Some g ∧ Moves i s g g' s'.
Proof.
  intros Hinv Hstep.
  destruct (goroutines s !! i) as [[req wg pc | req wg pc]|] eqn:Hi;
    [| | by simpl in Hstep; rewrite Hi in Hstep].
  - destruct pc as [| r | | |].
    + rewrite (step_create _ _ _ _ Hi) in Hstep. injection Hstep as <-.
      eexists _, _. split; [done |]. constructor.
    + rewrite (step_send_create _ _ _ _ _ Hinv Hi) in Hstep.
      injection Hstep as <-. eexists _, _. split; [done |]. constructor.
    + rewrite (step_delete _ _ _ _ Hi) in Hstep. injection Hstep as <-.
      eexists _, _. split; [done |]. constructor.
    + rewrite (step_done _ _ _ _ Hinv Hi) in Hstep. injection Hstep as <-.
      eexists _, _. split; [done |]. constructor.
      destruct Hinv as (_ & Hwg & _).
      by apply (wg_counter _ _ Hwg _ _ 1 Hi).
    + simpl in Hstep. by rewrite Hi in Hstep.
  - destruct pc as [| | r |].
    + rewrite (step_wait _ _ _ _ Hi) in Hstep.
      destruct (waitGroups s !! wg) as [[|n]|] eqn:Hn; try done.
      injection Hstep as <-. eexists _, _. split; [done |]. by constructor.
    + rewrite (step_get _ _ _ _ Hi) in Hstep. injection Hstep as <-.
      eexists _, _. split; [done |]. constructor.
    + rewrite (step_send_wait _ _ _ _ _ Hinv Hi) in Hstep.
      injection Hstep as <-. eexists _, _. split; [done |]. constructor.
    + simpl in Hstep. by rewrite Hi in Hstep.
Qed.


Lemma Moves_same i s g g' s' :
  Moves i s g g' s' →
  goReq g' = goReq g ∧ goWg g' = goWg g ∧ isWait g' = isWait g ∧
  goroutines s' = <[i:=g']> (goroutines s).
Proof.
  intros []; simpl; try done.
  destruct (createServiceForFunction_frame (funcMeta req) s _ _
              (surjective_pairing _)) as (_ & _ & Hgs & _).
  by rewrite Hgs.
Qed.

(** *** Waiting goroutines and the creation they joined *)

Lemma JoinedOk_insert gs i g g' :
  gs !! i = Some g →
  goReq g' = goReq g → goWg g' = goWg g → isWait g' = isWait g →
  JoinedOk gs → JoinedOk (<[i:=g']> gs).
Proof.
  intros Hi Hreq Hwg Hw Hj j h Hjh Hwait.
  assert (∃ h0, gs !! j = Some h0 ∧ isWait h0 = true ∧ goWg h0 = goWg h ∧
                goReq h0 = goReq h) as (h0 & Hj0 & Hw0 & Hg0 & Hr0).
  { insert_cases Hjh.
    - exists g. rewrite <- Hw, <- Hwg, <- Hreq. done.
    - exists h. done. }
  destruct (Hj j h0 Hj0 Hw0) as (i0 & c & Hlt & Hi0 & Hc & Hcg & Hck).
  destruct (decide (i0 = i)) as [-> | Hne].
  - exists i, g'. assert (c = g) as -> by congruence.
    split; [done |]. split.
    { apply list_lookup_insert_eq. by eapply lookup_lt_Some. }
    rewrite Hw, Hwg, Hreq. split; [done |]. split; congruence.
  - exists i0, c. split; [done |]. split.
    { by rewrite list_lookup_insert_ne. }
    split; [done |]. split; congruence.
Qed.

Lemma JoinedOk_snoc gs g :
  (isWait g = true →
   ∃ i c, gs !! i = Some c ∧ isWait c = false ∧ goWg c = goWg g ∧
          CacheKey (funcMeta (goReq c)) = CacheKey (funcMeta (goReq g))) →
  JoinedOk gs → JoinedOk (gs ++ [g]).
Proof.
  intros Hnew Hj j h Hjh Hwait. snoc_cases Hjh.
  - destruct (Hj j h Hjh Hwait) as (i & c & ? & Hi & ?).
    exists i, c. split; [done |]. split; [by apply lookup_app_l_Some | done].
  - destruct (Hnew Hwait) as (i & c & Hi & ?).
    exists i, c. split; [by eapply lookup_lt_Some |].
    split; [by apply lookup_app_l_Some | done].
Qed.

Lemma ReleasedOk_insert gs wgs i g g' :
  gs !! i = Some g → goWg g' = goWg g →
  (pastWait g' = true → pastWait g = true ∨ wgs !! goWg g = Some 0) →
  ReleasedOk gs wgs → ReleasedOk (<[i:=g']> gs) wgs.
Proof.
  intros Hi Hwg Hp Hr j h Hjh Hpast. insert_cases Hjh; [| eauto].
  rewrite Hwg. destruct (Hp Hpast); eauto.
Qed.


Lemma ReleasedOk_snoc gs wgs extra g :
  pastWait g = false →
  ReleasedOk gs wgs → ReleasedOk (gs ++ [g]) (wgs ++ extra).
Proof.
  intros Hp Hr j h Hjh Hpast. snoc_cases Hjh; [| congruence].
  apply lookup_app_l_Some. eauto.
Qed.

Lemma ReleasedOk_zero gs wgs wg :
  ReleasedOk gs wgs → ReleasedOk gs (<[wg:=0]> wgs).
Proof.
  intros Hr j h Hjh Hpast. specialize (Hr j h Hjh Hpast).
  destruct (decide (wg = goWg h)) as [-> | Hne].
  - apply list_lookup_insert_eq. by eapply lookup_lt_Some.
  - by rewrite list_lookup_insert_ne.
Qed.

Lemma JoinedOk_step ev s s' :
  Inv s → step ev s = Some s' →
  JoinedOk (goroutines s) → JoinedOk (goroutines s').
Proof.
  intros Hinv Hstep Hj. destruct ev as [m | i | t e x].
  - simpl in Hstep. injection Hstep as <-.
    unfold serveCreateFuncServices. simpl.
    destruct (fsCreateWg s !! CacheKey m) as [wg|] eqn:Hk; simpl.
    + apply JoinedOk_snoc; [| done]. intros _.
      destruct Hinv as (_ & _ & Hmk).
      apply Hmk in Hk as (i & c & Hi & Hf).
      apply inFlight_Some in Hf as (? & ? & ? & _). eauto 10.
    + by apply JoinedOk_snoc.
  - destruct (step_run_Moves _ _ _ Hinv Hstep) as (g & g' & Hi & Hm).
    destruct (Moves_same _ _ _ _ _ Hm) as (? & ? & ? & ->).
    by eapply JoinedOk_insert.
  - simpl in Hstep. case_decide; [| done]. by injection Hstep as <-.
Qed.

Lemma ReleasedOk_step ev s s' :
  Inv s → step ev s = Some s' →
  ReleasedOk (goroutines s) (waitGroups s) →
  ReleasedOk (goroutines s') (waitGroups s').
Proof.
  intros Hinv Hstep Hr. destruct ev as [m | i | t e x].
  - simpl in Hstep. injection Hstep as <-.
    unfold serveCreateFuncServices. simpl.
    destruct (fsCreateWg s !! CacheKey m) as [wg|] eqn:Hk; simpl.
    + rewrite <- (app_nil_r (waitGroups s)). by apply ReleasedOk_snoc.
    + by apply ReleasedOk_snoc.
  - destruct (step_run_Moves _ _ _ Hinv Hstep) as (g & g' & Hi & Hm).
    destruct Hm; simpl.
    + destruct (createServiceForFunction_frame (funcMeta req) s _ _
                  (surjective_pairing _)) as (_ & -> & -> & _).
      by eapply ReleasedOk_insert.
    + by eapply ReleasedOk_insert.
    + by eapply ReleasedOk_insert.
    + apply ReleasedOk_zero. by eapply ReleasedOk_insert.
    + eapply ReleasedOk_insert; eauto.
    + eapply ReleasedOk_insert; eauto.
    + eapply ReleasedOk_insert; eauto.
  - simpl in Hstep. case_decide; [| done]. by injection Hstep as <-.
Qed.

(** *** The environment cache over a run *)

Lemma createServiceForFunction_cache m s :
  CacheOk s → CacheOk (createServiceForFunction m s).2.
Proof.
  intros [Hexp Hent].
  destruct (createServiceForFunction m s) as [r s'] eqn:Hc. simpl.
  unfold createServiceForFunction, bind in Hc.
  destruct (getFunctionEnv m s) as [[env|e] s1] eqn:Hres.
  - destruct (dispatchBackend_keeps _ _ _ _ _ Hc) as (Hf & Hn & _).
    destruct (getFunctionEnv_effects _ _ _ _ Hres)
      as (_ & Hn1 & _ & Hexp1 & Hother & _).
    destruct (getFunctionEnv_Ok_cached _ _ _ _ Hres)
      as (ct & Hk & _ & Hct).
    split; [rewrite Hf; congruence |].
    intros k v c. rewrite Hf, Hn, Hn1.
    destruct (decide (k = CacheKey m)) as [-> | Hne].
    + rewrite Hk. intros [= <- <-]. destruct Hct as [-> | Hold]; [lia |].
      eauto.
    + rewrite Hother by done. eauto.
  - injection Hc as <- <-.
    pose proof (getFunctionEnv_Err_cache _ _ _ _ Hres) as Hf.
    destruct (getFunctionEnv_effects _ _ _ _ Hres) as (_ & Hn1 & _).
    split; [by rewrite Hf |]. rewrite Hf, Hn1. done.
Qed.

Lemma CacheOk_step ev s s' :
  Inv s → step ev s = Some s' → CacheOk s → CacheOk s'.
Proof.
  intros Hinv Hstep Hc. destruct ev as [m | i | t e x].
  - simpl in Hstep. injection Hstep as <-.
    unfold serveCreateFuncServices. simpl.
    by destruct (fsCreateWg s !! CacheKey m).
  - destruct (step_run_Moves _ _ _ Hinv Hstep) as (g & g' & Hi & Hm).
    destruct Hm; try done.
    by apply (createServiceForFunction_cache (funcMeta req)) in Hc.
  - simpl in Hstep. case_decide; [| done]. injection Hstep as <-.
    destruct Hc as [Hexp Hent]. split; [done |]. simpl.
    intros k v ct Hk. specialize (Hent k v ct Hk). lia.
Qed.


(** *** Collaborator calls against goroutines *)

Lemma countIf_app {A} (P : A → bool) (l k : list A) :
  countIf P (l ++ k) = countIf P l + countIf P k.
Proof. apply sum_list_with_app. Qed.

Lemma countIf_insert {A} (P : A → bool) (l : list A) i a b :
  l !! i = Some a →
  countIf P (<[i:=b]> l) + (if P a then 1 else 0) =
  countIf P l + (if P b then 1 else 0).
Proof.
  intros Hi. unfold countIf.
  rewrite <- (take_drop_middle _ _ _ Hi) at 2.
  rewrite insert_take_drop by (by eapply lookup_lt_Some).
  rewrite !sum_list_with_app. simpl. lia.
Qed.

Lemma countIf_insert_same {A} (P : A → bool) (l : list A) i a b :
  l !! i = Some a → P b = P a → countIf P (<[i:=b]> l) = countIf P l.
Proof.
  intros Hi Hp. pose proof (countIf_insert P l i a b Hi) as H.
  rewrite Hp in H. lia.
Qed.

(** One call of [createServiceForFunction] asks each collaborator at most
    once, the environment only after the function and [GetFuncSvc] only
    after [GetPool], and never the function-service cache. *)
Lemma createServiceForFunction_calls m s :
  ∃ l,
    calls (createServiceForFunction m s).2 = calls s ++ l ∧
    countIf isGetByFunction l = 0 ∧
    countIf isGetPool l ≤ 1 ∧ countIf isFunctionsGet l ≤ 1 ∧
    countIf isGetFuncSvc l ≤ countIf isGetPool l ∧
    countIf isEnvironmentsGet l ≤ countIf isFunctionsGet l.
Proof.
  unfold createServiceForFunction, getFunctionEnv, dispatchBackend,
    poolBackend, bind, fissionClient_Functions_Get,
    fissionClient_Environments_Get, GetPool, GetFuncSvc, of_sum, Getenv.
  destruct (Cache_Get _ _ _); simpl.
  - destruct (String.eqb _ _); simpl.
    { exists []. rewrite app_nil_r. simpl. split; [done |]. lia. }
    destruct (gpm_GetPool _ _) as [[pool|] x1]; simpl.
    + destruct (pool_GetFuncSvc _ _ _) as [[fsvc|] x2]; simpl;
        eexists; (split; [by rewrite <- ?app_assoc |]); cbn; lia.
    + eexists; (split; [by rewrite <- ?app_assoc |]); cbn; lia.
  - destruct (Functions_Get _ _ _) as [f|]; simpl.
    2:{ eexists; (split; [by rewrite <- ?app_assoc |]); cbn; lia. }
    destruct (Environments_Get _ _ _); simpl.
    2:{ eexists; (split; [by rewrite <- ?app_assoc |]); cbn; lia. }
    destruct (String.eqb _ _); simpl.
    { eexists; (split; [by rewrite <- ?app_assoc |]); cbn; lia. }
    destruct (gpm_GetPool _ _) as [[pool|] x1]; simpl.
    + destruct (pool_GetFuncSvc _ _ _) as [[fsvc|] x2]; simpl;
        eexists; (split; [by rewrite <- ?app_assoc |]); cbn; lia.
    + eexists; (split; [by rewrite <- ?app_assoc |]); cbn; lia.
Qed.

Lemma CallsOk_step ev s s' :
  Inv s → step ev s = Some s' → CallsOk s → CallsOk s'.
Proof.
  intros Hinv Hstep (H1 & H2 & H3 & H4 & H5). destruct ev as [m | i | t e x].
  - simpl in Hstep. injection Hstep as <-.
    unfold serveCreateFuncServices, CallsOk. simpl.
    destruct (fsCreateWg s !! CacheKey m); simpl;
      rewrite !countIf_app; cbn; lia.
  - destruct (step_run_Moves _ _ _ Hinv Hstep) as (g & g' & Hi & Hm).
    destruct (Moves_same _ _ _ _ _ Hm) as (_ & _ & _ & Hgs).
    unfold CallsOk. rewrite Hgs.
    pose proof (countIf_insert pastCreate _ i g g' Hi) as Hpc.
    pose proof (countIf_insert pastLookup _ i g g' Hi) as Hpl.
    destruct Hm; simpl in *.
    + destruct (createServiceForFunction_calls (funcMeta req) s)
        as (l & -> & ? & ? & ? & ? & ?).
      rewrite !countIf_app. lia.
    + lia.
    + lia.
    + lia.
    + lia.
    + rewrite !countIf_app. cbn. lia.
    + lia.
  - simpl in Hstep. case_decide; [| done]. by injection Hstep as <-.
Qed.

(** *** All of it, in every reachable state *)

Lemma reachable_more s :
  reachable s →
  Inv s ∧ JoinedOk (goroutines s) ∧
  ReleasedOk (goroutines s) (waitGroups s) ∧ CacheOk s ∧ CallsOk s.
Proof.
  intros (t & e & x & evs & Hrun).
  assert (∀ s0 : State X,
            Inv s0 ∧ JoinedOk (goroutines s0) ∧
            ReleasedOk (goroutines s0) (waitGroups s0) ∧
            CacheOk s0 ∧ CallsOk s0 →
            run evs s0 = Some s →
            Inv s ∧ JoinedOk (goroutines s) ∧
            ReleasedOk (goroutines s) (waitGroups s) ∧
            CacheOk s ∧ CallsOk s) as Hgen.
  { clear Hrun. induction evs as [|ev evs IH]; intros s0 Hall Hrun.
    - by injection Hrun as <-.
    - rewrite run_cons in Hrun.
      destruct (step ev s0) as [s1|] eqn:Hstep; [| done]. simpl in Hrun.
      destruct Hall as (Hi & Hj & Hr & Hc & Hcalls).
      apply (IH s1); [| done].
      split; [by eapply Inv_step |].
      split; [by eapply JoinedOk_step |].
      split; [by eapply ReleasedOk_step |].
      split; [by eapply CacheOk_step | by eapply CallsOk_step]. }
  apply (Hgen (MakeExecutor t e x)); [| done].
  split; [apply Inv_MakeExecutor |].
  split; [by intros j g Hj |]. split; [by intros j g Hj |].
  split; [| done]. split; [done |]. intros k v ct Hk. by simpl in Hk.
Qed.


(** *** Properties of every reachable state *)

Lemma creator_counter_cases creq wg cpc :
  cpc = CreateExited ∧ wgCounter (GoCreate creq wg cpc) = Some 0 ∨
  cpc ≠ CreateExited ∧ wgCounter (GoCreate creq wg cpc) = Some 1.
Proof. destruct cpc; eauto. Qed.


(** A creation goroutine can always execute its next statement, and a
    WaitGroup counter is never anything but 0 or 1: [Done] is called on a
    counter of 1, once. *)
Theorem creation_goroutine_never_blocks s i req wg pc :
  reachable s →
  goroutines s !! i = Some (GoCreate req wg pc) → pc ≠ CreateExited →
  is_Some (step (EvRun i) s) ∧
  waitGroups s !! wg = Some 1 ∧
  ∀ w n, waitGroups s !! w = Some n → n = 0 ∨ n = 1.
Proof.
  intros Hreach Hi Hpc. pose proof (reachable_Inv _ Hreach) as Hinv.
  split; [by eapply creator_enabled |].
  destruct Hinv as (_ & Hwg & _). split.
  - apply (wg_counter _ _ Hwg _ _ 1 Hi). by destruct pc.
  - intros w n Hw.
    destruct (wg_made _ _ Hwg w) as (j & c & Hj & Hcw & <-);
      [by eapply lookup_lt_Some |].
    destruct c as [creq cwg cpc |]; [| done]. simpl in Hw.
    destruct (creator_counter_cases creq cwg cpc) as [[_ Hc] | [_ Hc]];
      pose proof (wg_counter _ _ Hwg _ _ _ Hj Hc) as Hn; simpl in Hn;
      [left | right]; congruence.
Qed.

(** A waiting goroutine passes [wg.Wait()] exactly when the creation
    goroutine that made its WaitGroup has called [Done]. *)
Theorem wait_passes_exactly_after_done s j req wg :
  reachable s →
  goroutines s !! j = Some (GoWait req wg AtWait) →
  (is_Some (step (EvRun j) s) ↔
   ∃ i creq, goroutines s !! i = Some (GoCreate creq wg CreateExited)).
Proof.
  intros Hreach Hj. pose proof (reachable_Inv _ Hreach) as (_ & Hwg & _).
  rewrite (step_wait _ _ _ _ Hj).
  pose proof (wg_bound _ _ Hwg _ _ Hj) as Hlt. simpl in Hlt.
  destruct (wg_made _ _ Hwg wg Hlt) as (i & c & Hi & Hcw & Hcg).
  destruct c as [creq cwg cpc |]; [| done]. simpl in Hcg. subst cwg.
  split.
  - intros Hen. exists i, creq.
    destruct (creator_counter_cases creq wg cpc) as [[-> _] | [_ Hc1]];
      [done |].
    pose proof (wg_counter _ _ Hwg _ _ 1 Hi Hc1) as H1. simpl in H1.
    rewrite H1 in Hen. by destruct Hen.
  - intros (i' & creq' & Hi').
    pose proof (wg_counter _ _ Hwg _ _ 0 Hi' eq_refl) as H0. simpl in H0.
    rewrite H0. eauto.
Qed.

(** A waiting goroutine holds the WaitGroup of a creation goroutine that
    was launched before it and serves the same key. *)
Theorem waiter_joined_earlier_creation_of_its_key s j req wg pc :
  reachable s →
  goroutines s !! j = Some (GoWait req wg pc) →
  ∃ i creq cpc,
    i < j ∧ goroutines s !! i = Some (GoCreate creq wg cpc) ∧
    CacheKey (funcMeta creq) = CacheKey (funcMeta req).
Proof.
  intros Hreach Hj. destruct (reachable_more _ Hreach) as (_ & Hjo & _).
  destruct (Hjo j _ Hj eq_refl) as (i & c & Hlt & Hi & Hcw & Hcg & Hck).
  destruct c as [creq cwg cpc |]; [| done]. simpl in *. subst cwg.
  eauto 10.
Qed.

(** No waiting goroutine gets ahead of the creation it joined: once it is
    past [wg.Wait()], the creation goroutine has ended and the request
    that triggered the creation has its response. *)
Theorem waiter_answered_after_its_creation s j req wg pc :
  reachable s →
  goroutines s !! j = Some (GoWait req wg pc) → pc ≠ AtWait →
  ∃ i creq r,
    i < j ∧ goroutines s !! i = Some (GoCreate creq wg CreateExited) ∧
    chans s !! respChan creq = Some [r].
Proof.
  intros Hreach Hj Hpc.
  destruct (reachable_more _ Hreach) as ((Hch & Hwg & _) & Hjo & Hre & _).
  destruct (Hjo j _ Hj eq_refl) as (i & c & Hlt & Hi & Hcw & Hcg & _).
  destruct c as [creq cwg cpc |]; [| done]. simpl in Hcg. subst cwg.
  assert (waitGroups s !! wg = Some 0) as H0.
  { apply (Hre j _ Hj). by destruct pc. }
  assert (cpc = CreateExited) as ->.
  { destruct (creator_counter_cases creq wg cpc) as [[-> _] | [_ Hc1]];
      [done |].
    pose proof (wg_counter _ _ Hwg _ _ 1 Hi Hc1) as H1. simpl in H1.
    congruence. }
  destruct (chans_sent _ _ Hch _ _ Hi) as (q & Hq & Hl). simpl in Hl.
  pose proof (chans_own _ _ Hch _ _ Hi) as Ho. simpl in Ho.
  destruct q as [|r [|]]; try done.
  exists i, creq, r. rewrite Ho. done.
Qed.


(** A step leaves every channel as it is, with one exception: a goroutine
    standing at its send puts the response it holds on its own channel,
    which was empty until then.  No goroutine writes to another request's
    channel, and nothing is ever taken back. *)
Theorem channels_written_once_by_owner ev s s' c q :
  reachable s → step ev s = Some s' → chans s !! c = Some q →
  chans s' !! c = Some q ∨
  ∃ g r, ev = EvRun c ∧ goroutines s !! c = Some g ∧
         respChan (goReq g) = c ∧ pendingResp g = Some r ∧
         q = [] ∧ chans s' !! c = Some [r].
Proof.
  intros Hreach Hstep Hc. pose proof (reachable_Inv _ Hreach) as Hinv.
  destruct ev as [m | i | t e x].
  - left. simpl in Hstep. injection Hstep as <-.
    unfold serveCreateFuncServices. simpl.
    destruct (fsCreateWg s !! CacheKey m); simpl; by apply lookup_app_l_Some.
  - destruct (step_run_Moves _ _ _ Hinv Hstep) as (g & g' & Hi & Hm).
    destruct Hinv as (Hch & _ & _).
    pose proof (chans_own _ _ Hch _ _ Hi) as Ho.
    destruct (chans_sent _ _ Hch _ _ Hi) as (qi & Hqi & Hl).
    destruct Hm; simpl in *; try (by left).
    + left.
      destruct (createServiceForFunction_frame (funcMeta req) s _ _
                  (surjective_pairing _)) as (_ & _ & _ & Hcs).
      by rewrite Hcs.
    + destruct (decide (i = c)) as [-> | Hne].
      * right. exists (GoCreate req wg (AtSend r)), r.
        assert (q = qi) as -> by congruence. destruct qi; [| done].
        do 5 (split; [done |]).
        apply list_lookup_insert_eq. by eapply lookup_lt_Some.
      * left. by rewrite list_lookup_insert_ne.
    + destruct (decide (i = c)) as [-> | Hne].
      * right. exists (GoWait req wg (AtSendWaited r)), r.
        assert (q = qi) as -> by congruence. destruct qi; [| done].
        do 5 (split; [done |]).
        apply list_lookup_insert_eq. by eapply lookup_lt_Some.
      * left. by rewrite list_lookup_insert_ne.
  - left. simpl in Hstep. case_decide; [| done]. by injection Hstep as <-.
Qed.

(** When no goroutine has a statement left, the table holds no marker and
    every WaitGroup counter is zero: nothing is left behind. *)
Theorem quiescent_state_is_clean s :
  reachable s → work s = 0 →
  fsCreateWg s = ∅ ∧ Forall (λ n, n = 0) (waitGroups s).
Proof.
  intros Hreach Hw. pose proof (reachable_Inv _ Hreach) as (_ & Hwg & Hmk).
  split.
  - apply map_eq. intros k. rewrite lookup_empty.
    destruct (fsCreateWg s !! k) as [wg|] eqn:Hk; [| done].
    apply Hmk in Hk as (i & g & Hi & Hf).
    pose proof (work_zero_exited _ _ _ Hw Hi) as Hex.
    destruct g as [? ? []|]; done.
  - apply Forall_lookup. intros w n Hn.
    destruct (wg_made _ _ Hwg w) as (i & g & Hi & Hgw & <-);
      [by eapply lookup_lt_Some |].
    pose proof (work_zero_exited _ _ _ Hw Hi) as Hex.
    destruct g as [creq cwg cpc |]; [| done].
    destruct cpc; try done.
    pose proof (wg_counter _ _ Hwg _ _ 0 Hi eq_refl) as H0. simpl in *.
    congruence.
Qed.


Lemma countIf_mono {A} (P Q : A → bool) (l : list A) :
  (∀ a, P a = true → Q a = true) → countIf P l ≤ countIf Q l.
Proof.
  intros HPQ. unfold countIf. induction l as [|a l IH]; [done |].
  cbn [sum_list_with]. specialize (HPQ a).
  destruct (P a), (Q a); try lia; by specialize (HPQ eq_refl).
Qed.

(** Collaborator calls against goroutines: the lookups made in the
    function-service cache are at least as many as the waiting goroutines
    that hold or have sent a response, and at most as many as those that
    have passed [wg.Wait()]; the pool manager has been asked for a pool,
    and the metadata client for a function, at most once for each creation
    goroutine launched; [GetFuncSvc] was called no more often than
    [GetPool], the environment fetched no more often than the function. *)
Theorem collaborator_calls_bounded_by_goroutines s :
  reachable s →
  countIf pastLookup (goroutines s) ≤ countIf isGetByFunction (calls s) ∧
  countIf isGetByFunction (calls s) ≤ countIf pastWait (goroutines s) ∧
  countIf isGetPool (calls s) ≤ countIf isCreate (goroutines s) ∧
  countIf isFunctionsGet (calls s) ≤ countIf isCreate (goroutines s) ∧
  countIf isGetFuncSvc (calls s) ≤ countIf isGetPool (calls s) ∧
  countIf isEnvironmentsGet (calls s) ≤ countIf isFunctionsGet (calls s) ∧
  countIf isCreate (goroutines s) + countIf isWait (goroutines s)
    = length (goroutines s).
Proof.
  intros Hreach.
  destruct (reachable_more _ Hreach)
    as (_ & _ & _ & _ & H1 & H2 & H3 & H4 & H5).
  assert (countIf pastLookup (goroutines s)
            ≤ countIf pastWait (goroutines s)) as Hlw.
  { apply countIf_mono. intros [? ? []|? ? []]; done. }
  assert (countIf pastCreate (goroutines s)
            ≤ countIf isCreate (goroutines s)) as Hcc.
  { apply countIf_mono. intros [? ? []|? ? []]; done. }
  split; [lia |]. split; [lia |]. split; [lia |]. split; [lia |].
  split; [done |]. split; [done |].
  clear. induction (goroutines s) as [|g gs IH]; [done |].
  unfold countIf in *. cbn [sum_list_with length].
  destruct g; cbn [isCreate isWait negb]; lia.
Qed.

(** The table entry of a key changes in two ways only: a request for that
    key is received while it has no marker, or the creation goroutine of
    that key executes its [delete], and then the marker it removes is its
    own. *)
Theorem marker_changes_only_for_own_key ev s s' k :
  reachable s → step ev s = Some s' →
  fsCreateWg s' !! k ≠ fsCreateWg s !! k →
  (∃ m, ev = EvSubmit m ∧ CacheKey m = k ∧ fsCreateWg s !! k = None ∧
        fsCreateWg s' !! k = Some (length (waitGroups s))) ∨
  (∃ i req wg,
     ev = EvRun i ∧ goroutines s !! i = Some (GoCreate req wg AtDelete) ∧
     CacheKey (funcMeta req) = k ∧ fsCreateWg s !! k = Some wg ∧
     fsCreateWg s' !! k = None).
Proof.
  intros Hreach Hstep Hdiff. pose proof (reachable_Inv _ Hreach) as Hinv.
  destruct ev as [m | i | t e x].
  - left. exists m. simpl in Hstep. injection Hstep as <-.
    revert Hdiff. unfold serveCreateFuncServices. simpl.
    destruct (fsCreateWg s !! CacheKey m) as [wg|] eqn:Hk; simpl; [done |].
    intros Hdiff. destruct (decide (CacheKey m = k)) as [<- | Hne].
    + rewrite lookup_insert_eq. done.
    + by rewrite lookup_insert_ne in Hdiff.
  - right. destruct (step_run_Moves _ _ _ Hinv Hstep) as (g & g' & Hi & Hm).
    destruct Hm; simpl in Hdiff; try done.
    + destruct (createServiceForFunction_frame (funcMeta req) s _ _
                  (surjective_pairing _)) as (Ht & _).
      by rewrite Ht in Hdiff.
    + exists i, req, wg. simpl.
      destruct (decide (CacheKey (funcMeta req) = k)) as [<- | Hne].
      * rewrite lookup_delete_eq. do 3 (split; [done |]). split; [| done].
        destruct Hinv as (_ & _ & Hmk). apply Hmk.
        exists i, (GoCreate req wg AtDelete). split; [done |].
        simpl. by rewrite decide_True.
      * by rewrite lookup_delete_ne in Hdiff.
  - simpl in Hstep. case_decide; [| done]. by injection Hstep as <-.
Qed.


Lemma released_waiters_run js : ∀ s,
  Inv s → NoDup js →
  (∀ j, j ∈ js → ∃ req wg,
     goroutines s !! j = Some (GoWait req wg AtWait) ∧
     waitGroups s !! wg = Some 0) →
  ∃ s',
    run (EvRun <$> (js ≫= λ j, [j; j; j])) s = Some s' ∧
    ext s' = ext s ∧ fsCreateWg s' = fsCreateWg s ∧
    waitGroups s' = waitGroups s ∧
    (∀ j req wg, j ∈ js →
       goroutines s !! j = Some (GoWait req wg AtWait) →
       chans s' !! j = Some [registryAnswer (ext s) (funcMeta req)]) ∧
    (∀ c, c ∉ js →
       chans s' !! c = chans s !! c ∧
       goroutines s' !! c = goroutines s !! c).
Proof.
  induction js as [|j js IH]; intros s Hinv Hnd Hall.
  - exists s. simpl. do 4 (split; [done |]). split; [| done].
    intros j req wg Hj. by apply elem_of_nil in Hj.
  - apply NoDup_cons in Hnd as [Hnotin Hnd].
    destruct (Hall j) as (req & wg & Hj & Hzero); [by left |].
    destruct (waiter_runs s j req wg Hinv Hj Hzero)
      as (s1 & Hrun1 & Hinv1 & Hgs1 & Hcs1 & Hw1 & Ht1 & Hx1 & _).
    destruct (IH s1 Hinv1 Hnd) as (s' & Hrun & Hx & Ht & Hw & Hans & Hfr).
    { intros j' Hj'. destruct (Hall j') as (req' & wg' & Hj'0 & Hz');
        [by right |].
      exists req', wg'. rewrite Hgs1, Hw1. split; [| done].
      rewrite list_lookup_insert_ne; [done |]. by intros ->. }
    exists s'. split.
    { change ((j :: js) ≫= λ j, [j; j; j])
        with ([j; j; j] ++ (js ≫= λ j, [j; j; j])).
      rewrite fmap_app, run_app, Hrun1. done. }
    split; [congruence |]. split; [congruence |]. split; [congruence |].
    assert (j < length (chans s)) as Hlt.
    { destruct Hinv as (Hch & _ & _). rewrite (chans_length _ _ Hch).
      by eapply lookup_lt_Some. }
    split.
    + intros j' req' wg' Hin Hj'. apply elem_of_cons in Hin as [-> | Hin].
      * destruct (Hfr j Hnotin) as [-> _]. rewrite Hcs1.
        assert (req' = req) as -> by congruence.
        by apply list_lookup_insert_eq.
      * rewrite <- Hx1. apply (Hans j' req' wg' Hin).
        rewrite Hgs1, list_lookup_insert_ne; [done |]. by intros ->.
    + intros c Hc. apply not_elem_of_cons in Hc as [Hne Hc].
      destruct (Hfr c Hc) as [-> ->]. rewrite Hcs1, Hgs1.
      by rewrite !list_lookup_insert_ne.
Qed.



Lemma reachable_step ev s s' :
  reachable s → step ev s = Some s' → reachable s'.
Proof.
  intros (t & e & x & evs & Hrun) Hstep. exists t, e, x, (evs ++ [ev]).
  rewrite run_app, Hrun. simpl. by rewrite Hstep.
Qed.

Lemma released_stays_released ev s s' w :
  Inv s → step ev s = Some s' →
  waitGroups s !! w = Some 0 → waitGroups s' !! w = Some 0.
Proof.
  intros Hinv Hstep Hw. destruct ev as [m | i | t e x].
  - simpl in Hstep. injection Hstep as <-.
    unfold serveCreateFuncServices. simpl.
    destruct (fsCreateWg s !! CacheKey m); simpl; [done |].
    by apply lookup_app_l_Some.
  - destruct (step_run_Moves _ _ _ Hinv Hstep) as (g & g' & Hi & Hm).
    destruct Hm; simpl; try done.
    + destruct (createServiceForFunction_frame (funcMeta req) s _ _
                  (surjective_pairing _)) as (_ & -> & _). done.
    + destruct (decide (wg = w)) as [-> | Hne].
      * apply list_lookup_insert_eq. by eapply lookup_lt_Some.
      * by rewrite list_lookup_insert_ne.
  - simpl in Hstep. case_decide; [| done]. by injection Hstep as <-.
Qed.

Lemma others_untouched ev s s' j g :
  Inv s → step ev s = Some s' → ev ≠ EvRun j →
  goroutines s !! j = Some g → goroutines s' !! j = Some g.
Proof.
  intros Hinv Hstep Hev Hj. destruct ev as [m | i | t e x].
  - simpl in Hstep. injection Hstep as <-.
    unfold serveCreateFuncServices. simpl.
    destruct (fsCreateWg s !! CacheKey m); simpl; by apply lookup_app_l_Some.
  - destruct (step_run_Moves _ _ _ Hinv Hstep) as (h & h' & Hi & Hm).
    destruct (Moves_same _ _ _ _ _ Hm) as (_ & _ & _ & ->).
    rewrite list_lookup_insert_ne; [done |]. congruence.
  - simpl in Hstep. case_decide; [| done]. by injection Hstep as <-.
Qed.

(** No event takes a goroutine's next statement away: a goroutine that can
    step still can after a request was received, another goroutine
    stepped, or the world moved.  Goroutines do not block one another. *)
Theorem enabled_goroutine_stays_enabled ev s s' j :
  reachable s → step ev s = Some s' → ev ≠ EvRun j →
  is_Some (step (EvRun j) s) → is_Some (step (EvRun j) s').
Proof.
  intros Hreach Hstep Hev Hen.
  pose proof (reachable_Inv _ Hreach) as Hinv.
  pose proof (Inv_step _ _ _ Hstep Hinv) as Hinv'.
  destruct (goroutines s !! j) as [g|] eqn:Hj;
    [| simpl in Hen; rewrite Hj in Hen; by destruct Hen].
  pose proof (others_untouched _ _ _ _ _ Hinv Hstep Hev Hj) as Hj'.
  destruct g as [req wg pc | req wg pc].
  - eapply creator_enabled; eauto. intros ->.
    simpl in Hen. rewrite Hj in Hen. by destruct Hen.
  - destruct pc as [| | r |].
    + rewrite (step_wait _ _ _ _ Hj) in Hen.
      rewrite (step_wait _ _ _ _ Hj').
      destruct (waitGroups s !! wg) as [[|n]|] eqn:Hw;
        try (by destruct Hen).
      rewrite (released_stays_released _ _ _ _ Hinv Hstep Hw). eauto.
    + rewrite (step_get _ _ _ _ Hj'). eauto.
    + rewrite (step_send_wait _ _ _ _ _ Hinv' Hj'). eauto.
    + simpl in Hen. rewrite Hj in Hen. by destruct Hen.
Qed.

(** No two keys share a WaitGroup: the markers in the table hold pairwise
    different WaitGroups, each one's counter at 1. *)
Theorem markers_hold_distinct_waitgroups s k1 k2 wg :
  reachable s →
  fsCreateWg s !! k1 = Some wg → fsCreateWg s !! k2 = Some wg →
  k1 = k2 ∧ waitGroups s !! wg = Some 1.
Proof.
  intros Hreach H1 H2. pose proof (reachable_Inv _ Hreach) as (_ & Hwg & Hmk).
  apply Hmk in H1 as (i & g & Hi & Hf1).
  apply Hmk in H2 as (j & h & Hj & Hf2).
  pose proof (inFlight_Some _ _ _ Hf1) as (Hw1 & Hg1 & Hk1 & Hc1).
  pose proof (inFlight_Some _ _ _ Hf2) as (Hw2 & Hg2 & Hk2 & _).
  assert (i = j) as -> by (eapply (wg_owner _ _ Hwg); eauto; congruence).
  assert (h = g) as -> by congruence.
  split; [congruence |].
  rewrite <- Hg1. by apply (wg_counter _ _ Hwg _ _ 1 Hi).
Qed.

Lemma resources_step ev s s' :
  Inv s → step ev s = Some s' →
  length (goroutines s') =
    length (goroutines s) + (if isSubmit ev then 1 else 0) ∧
  (length (waitGroups s) = countIf isCreate (goroutines s) →
   length (waitGroups s') = countIf isCreate (goroutines s')).
Proof.
  intros Hinv Hstep. destruct ev as [m | i | t e x].
  - simpl in Hstep. injection Hstep as <-.
    unfold serveCreateFuncServices. simpl.
    destruct (fsCreateWg s !! CacheKey m); simpl;
      rewrite ?length_app, ?countIf_app; cbn; split; lia.
  - destruct (step_run_Moves _ _ _ Hinv Hstep) as (g & g' & Hi & Hm).
    destruct (Moves_same _ _ _ _ _ Hm) as (_ & _ & Hw & Hgs).
    rewrite Hgs, length_insert. split; [simpl; lia |].
    rewrite (countIf_insert_same isCreate _ i g g' Hi)
      by (unfold isCreate; by rewrite Hw).
    intros <-. destruct Hm; simpl; try done.
    + destruct (createServiceForFunction_frame (funcMeta req) s _ _
                  (surjective_pairing _)) as (_ & -> & _). done.
    + by rewrite length_insert.
  - simpl in Hstep. case_decide; [| done]. injection Hstep as <-.
    simpl. split; [lia | done].
Qed.

(** Goroutines, channels and WaitGroups against requests: a run that
    received [n] requests has launched [n] goroutines and made [n]
    channels, and has made one WaitGroup for each creation goroutine and
    none for a waiting one.  No goroutine launches another. *)
Theorem one_goroutine_per_request t e (x : X) evs s :
  run evs (MakeExecutor t e x) = Some s →
  length (goroutines s) = countIf isSubmit evs ∧
  length (chans s) = countIf isSubmit evs ∧
  length (waitGroups s) = countIf isCreate (goroutines s).
Proof.
  intros Hrun.
  assert (∀ s0 : State X,
            Inv s0 →
            length (waitGroups s0) = countIf isCreate (goroutines s0) →
            run evs s0 = Some s →
            length (goroutines s) =
              length (goroutines s0) + countIf isSubmit evs ∧
            length (waitGroups s) = countIf isCreate (goroutines s) ∧
            Inv s) as Hgen.
  { clear Hrun. induction evs as [|ev evs IH]; intros s0 Hinv Hw Hrun.
    - injection Hrun as <-. cbn. split; [lia | done].
    - rewrite run_cons in Hrun.
      destruct (step ev s0) as [s1|] eqn:Hstep; [| done]. simpl in Hrun.
      destruct (resources_step _ _ _ Hinv Hstep) as (Hl & Hw1).
      destruct (IH s1) as (Hl' & Hw' & Hinv');
        [by eapply Inv_step | by apply Hw1 | done |].
      split; [| done]. rewrite Hl', Hl. unfold countIf. simpl. lia. }
  destruct (Hgen (MakeExecutor t e x)) as (Hl & Hw & (Hch & _));
    [apply Inv_MakeExecutor | done | done |].
  simpl in Hl. rewrite (chans_length _ _ Hch). done.
Qed.

End RunProperties.

(** ** The strategy of a call *)

Section Strategy.
Context {X : Type} `{!Collaborators X}.
Implicit Types (s : State X) (m : ObjectMeta) (env : Environment).

Lemma countIf_metadata (l : list Call) :
  Forall (λ c, isMetadataCall c = true) l → countIf isGetPool l = 0.
Proof.
  unfold countIf. induction 1 as [|c l Hc _ IH]; [done |].
  cbn [sum_list_with]. rewrite IH. by destruct c.
Qed.

(** Which arm a call takes, seen from outside: after a resolution that
    succeeds the pool manager is asked exactly when the variable does not
    read [DEPLOY] at the call. *)
Lemma asksPool_Getenv m s env s1 :
  getFunctionEnv m s = (Ok env, s1) →
  (Getenv "EXECUTOR_BACKEND" s = "DEPLOY"%string →
   asksPool m s = false ∧ createServiceForFunction m s = (Ok None, s1)) ∧
  (Getenv "EXECUTOR_BACKEND" s ≠ "DEPLOY"%string →
   asksPool m s = true ∧
   createServiceForFunction m s = poolBackend m env s1 ∧
   ∃ rest, calls (createServiceForFunction m s).2
           = calls s1 ++ CallGetPool env :: rest).
Proof.
  intros Hres.
  destruct (getFunctionEnv_effects _ _ _ _ Hres)
    as (_ & _ & Henv & _ & _ & l & Hl & _ & Hall).
  assert (countIf isGetPool (calls s1) = countIf isGetPool (calls s)) as Hn.
  { rewrite Hl, countIf_app, (countIf_metadata _ Hall). lia. }
  assert (Getenv "EXECUTOR_BACKEND" s1 = Getenv "EXECUTOR_BACKEND" s) as Hg
    by (unfold Getenv; by rewrite Henv).
  unfold asksPool, createServiceForFunction, bind. rewrite Hres.
  split; intros Hd.
  - rewrite dispatchBackend_DEPLOY by congruence. simpl.
    rewrite Hn, Nat.eqb_refl. done.
  - rewrite dispatchBackend_default by congruence.
    destruct (poolBackend_calls m env s1) as (rest & Hc).
    split; [| split; [done | eauto]].
    rewrite Hc, countIf_app, Hn. unfold countIf at 2.
    cbn [sum_list_with isGetPool]. apply negb_true_iff, Nat.eqb_neq. lia.
Qed.

(** C8, as the code has it: the strategy is decided inside every call,
    after resolution, from the value [EXECUTOR_BACKEND] has at that call;
    nothing is remembered from construction or from an earlier call.  For
    two calls in one process, with the environment changed to [e] between
    them: each asks the pool manager exactly when the variable does not
    read [DEPLOY] at that call, and otherwise returns a nil service and a
    nil error having called nothing; the two take the same arm when the
    variable reads the same at both, and different arms when it reads
    [DEPLOY] at exactly one of them. *)
Theorem strategy_follows_environment_at_call
    m1 m2 s s' t e (x : X) env1 s1 env2 s2 :
  getFunctionEnv m1 s = (Ok env1, s1) →
  s' = set_world t e x (createServiceForFunction m1 s).2 →
  getFunctionEnv m2 s' = (Ok env2, s2) →
  Getenv "EXECUTOR_BACKEND" s'
    = default ""%string (e !! "EXECUTOR_BACKEND"%string) ∧
  (asksPool m1 s = false ↔ Getenv "EXECUTOR_BACKEND" s = "DEPLOY"%string) ∧
  (asksPool m2 s' = false ↔ Getenv "EXECUTOR_BACKEND" s' = "DEPLOY"%string) ∧
  (asksPool m1 s = false → createServiceForFunction m1 s = (Ok None, s1)) ∧
  (asksPool m2 s' = false → createServiceForFunction m2 s' = (Ok None, s2)) ∧
  (asksPool m1 s = true →
   createServiceForFunction m1 s = poolBackend m1 env1 s1 ∧
   ∃ rest, calls (createServiceForFunction m1 s).2
           = calls s1 ++ CallGetPool env1 :: rest) ∧
  (asksPool m2 s' = true →
   createServiceForFunction m2 s' = poolBackend m2 env2 s2 ∧
   ∃ rest, calls (createServiceForFunction m2 s').2
           = calls s2 ++ CallGetPool env2 :: rest) ∧
  (Getenv "EXECUTOR_BACKEND" s' = Getenv "EXECUTOR_BACKEND" s →
   asksPool m2 s' = asksPool m1 s) ∧
  ((Getenv "EXECUTOR_BACKEND" s = "DEPLOY"%string ↔
    Getenv "EXECUTOR_BACKEND" s' ≠ "DEPLOY"%string) →
   asksPool m2 s' = negb (asksPool m1 s)).
Proof.
  intros Hres1 Hs' Hres2.
  destruct (asksPool_Getenv _ _ _ _ Hres1) as (Hd1 & Hp1).
  destruct (asksPool_Getenv _ _ _ _ Hres2) as (Hd2 & Hp2).
  split; [by rewrite Hs' |].
  destruct (decide (Getenv "EXECUTOR_BACKEND" s = "DEPLOY"%string))
    as [Hv1 | Hv1];
  destruct (decide (Getenv "EXECUTOR_BACKEND" s' = "DEPLOY"%string))
    as [Hv2 | Hv2].
  - destruct (Hd1 Hv1) as (Ha1 & Hc1). destruct (Hd2 Hv2) as (Ha2 & Hc2).
    rewrite Ha1, Ha2. repeat split; try done. intros Hiff.
    by apply Hiff in Hv1.
  - destruct (Hd1 Hv1) as (Ha1 & Hc1).
    destruct (Hp2 Hv2) as (Ha2 & Hc2 & Hr2).
    rewrite Ha1, Ha2. repeat split; try done. congruence.
  - destruct (Hp1 Hv1) as (Ha1 & Hc1 & Hr1).
    destruct (Hd2 Hv2) as (Ha2 & Hc2).
    rewrite Ha1, Ha2. repeat split; try done. congruence.
  - destruct (Hp1 Hv1) as (Ha1 & Hc1 & Hr1).
    destruct (Hp2 Hv2) as (Ha2 & Hc2 & Hr2).
    rewrite Ha1, Ha2. repeat split; try done. intros Hiff.
    by apply Hiff in Hv2.
Qed.

End Strategy.

(** ** The process and its marker table *)

Section ProcessRuns.
Context {X : Type} `{!Collaborators X}.
Implicit Types (s : State X) (p : Process X) (m : ObjectMeta).

Lemma play_cons ev evs p : play (ev :: evs) p = pstep ev p ≫= play evs.
Proof. done. Qed.

Lemma play_app evs1 : ∀ evs2 p,
  play (evs1 ++ evs2) p = play evs1 p ≫= play evs2.
Proof.
  induction evs1 as [|ev evs1 IH]; intros evs2 p; [done |].
  rewrite <- app_comm_cons, !play_cons.
  destruct (pstep ev p) as [p1|]; [apply IH | done].
Qed.

(** A step that leaves the process alive either enters the [delete] of
    line 97, changing nothing yet, or is a step of the executor. *)
Lemma pstep_cases ev p p' :
  pstep ev p = Some p' → aborted p' = false →
  aborted p = false ∧
  ((exec p' = exec p ∧ deleting p = None ∧
    ∃ g req wg, ev = EvRun g ∧ deleting p' = Some g ∧
      goroutines (exec p) !! g = Some (GoCreate req wg AtDelete)) ∨
   (step ev (exec p) = Some (exec p') ∧
    (deleting p' = deleting p ∨
     deleting p' = None ∧ ∃ g, ev = EvRun g ∧ deleting p = Some g))).
Proof.
  unfold pstep. destruct (aborted p) eqn:Ha; [done |].
  intros Hstep Hlive. split; [done |].
  destruct ev as [m | g | t e x].
  - destruct (deleting p) as [g'|] eqn:Hd.
    + injection Hstep as <-. done.
    + destruct (step (EvSubmit m) (exec p)) as [s'|] eqn:Hs; [| done].
      injection Hstep as <-. right. split; [done | by left].
  - destruct (goroutines (exec p) !! g) as [[req wg pc | req wg pc]|] eqn:Hg.
    + destruct pc;
        try (destruct (step (EvRun g) (exec p)) as [s'|] eqn:Hs; [| done];
             injection Hstep as <-; right; split; [done | by left]).
      destruct (deleting p) as [g'|] eqn:Hd.
      * destruct (decide (g' = g)) as [-> | Hne].
        -- destruct (step (EvRun g) (exec p)) as [s'|] eqn:Hs; [| done].
           injection Hstep as <-. right. split; [done |]. right. eauto.
        -- injection Hstep as <-. done.
      * injection Hstep as <-. left. eauto 10.
    + destruct (step (EvRun g) (exec p)) as [s'|] eqn:Hs; [| done].
      injection Hstep as <-. right. split; [done | by left].
    + destruct (step (EvRun g) (exec p)) as [s'|] eqn:Hs; [| done].
      injection Hstep as <-. right. split; [done | by left].
  - destruct (step (EvWorld t e x) (exec p)) as [s'|] eqn:Hs; [| done].
    injection Hstep as <-. right. split; [done | by left].
Qed.

Lemma play_live evs : ∀ p p',
  play evs p = Some p' → aborted p' = false → aborted p = false.
Proof.
  induction evs as [|ev evs IH]; intros p p' Hplay Hlive.
  - by injection Hplay as ->.
  - rewrite play_cons in Hplay.
    destruct (pstep ev p) as [p1|] eqn:Hstep; [| done]. simpl in Hplay.
    pose proof (IH _ _ Hplay Hlive) as H1.
    by destruct (pstep_cases _ _ _ Hstep H1).
Qed.

(** Leaving out the steps that enter a [delete], a run of a process that
    is alive at its end is a run of the executor; at most every other step
    is left out. *)
Lemma play_run evs : ∀ p p',
  play evs p = Some p' → aborted p' = false →
  ∃ evs0,
    run evs0 (exec p) = Some (exec p') ∧
    (∀ P : Event X → Prop, Forall P evs → Forall P evs0) ∧
    length evs + inDelete p ≤ 2 * length evs0 + inDelete p'.
Proof.
  induction evs as [|ev evs IH]; intros p p' Hplay Hlive.
  - injection Hplay as ->. exists []. split; [done |]. split; [done | lia].
  - rewrite play_cons in Hplay.
    destruct (pstep ev p) as [p1|] eqn:Hstep; [| done]. simpl in Hplay.
    pose proof (play_live _ _ _ Hplay Hlive) as H1.
    destruct (IH _ _ Hplay Hlive) as (evs0 & Hrun & Hall & Hlen).
    destruct (pstep_cases _ _ _ Hstep H1)
      as (_ & [(He & Hd & g & req & wg & -> & Hd1 & _) | (Hs & Hd)]).
    + exists evs0. rewrite <- He. split; [done |]. split.
      * intros P HP. apply Hall. by inversion HP.
      * unfold inDelete in *. rewrite Hd. rewrite Hd1 in Hlen. simpl in *. lia.
    + exists (ev :: evs0). split.
      * rewrite run_cons, Hs. done.
      * split.
        -- intros P HP. inversion HP; subst. constructor; [done |]. by apply Hall.
        -- unfold inDelete in *. simpl.
           destruct Hd as [Hd | (Hd & _)]; rewrite Hd in Hlen;
             destruct (deleting p); simpl in *; lia.
Qed.

(** The states of a process that is alive are states of the executor, and
    the goroutine inside the [delete] stands at line 97. *)
Lemma play_reachable t e (x : X) evs p :
  play evs (boot t e x) = Some p → aborted p = false →
  reachable (exec p).
Proof.
  intros Hplay Hlive.
  destruct (play_run _ _ _ Hplay Hlive) as (evs0 & Hrun & _).
  by exists t, e, x, evs0.
Qed.

Lemma play_deleting evs : ∀ p p',
  play evs p = Some p' → aborted p' = false → Inv (exec p) →
  (∀ g, deleting p = Some g →
     ∃ req wg, goroutines (exec p) !! g = Some (GoCreate req wg AtDelete)) →
  ∀ g, deleting p' = Some g →
    ∃ req wg, goroutines (exec p') !! g = Some (GoCreate req wg AtDelete).
Proof.
  induction evs as [|ev evs IH]; intros p p' Hplay Hlive Hinv Hwf.
  - by injection Hplay as ->.
  - rewrite play_cons in Hplay.
    destruct (pstep ev p) as [p1|] eqn:Hstep; [| done]. simpl in Hplay.
    pose proof (play_live _ _ _ Hplay Hlive) as H1.
    apply (IH _ _ Hplay Hlive).
    + destruct (pstep_cases _ _ _ Hstep H1)
        as (_ & [(He & _) | (Hs & _)]); [by rewrite He |].
      by eapply Inv_step.
    + intros g Hg.
      destruct (pstep_cases _ _ _ Hstep H1)
        as (_ & [(He & Hd & g' & req & wg & -> & Hd1 & Hat) | (Hs & Hd)]).
      * rewrite He. rewrite Hd1 in Hg. injection Hg as <-. eauto.
      * destruct Hd as [Hd | (Hd & _)]; [| congruence].
        rewrite Hd in Hg. destruct (Hwf _ Hg) as (req & wg & Hat).
        exists req, wg. eapply others_untouched; eauto.
        intros ->. revert Hstep. unfold pstep.
        destruct (aborted p); [done |]. rewrite Hat, Hg.
        rewrite decide_True by done.
        destruct (step (EvRun g) (exec p)); [| done].
        intros [= <-]. simpl in Hd. congruence.
Qed.

Lemma play_of_run evs : ∀ s s',
  run evs s = Some s' →
  ∃ evs', play evs' (live s) = Some (live s') ∧
          ∀ P : Event X → Prop, Forall P evs → Forall P evs'.
Proof.
  induction evs as [|ev evs IH]; intros s s' Hrun.
  - injection Hrun as ->. by exists [].
  - rewrite run_cons in Hrun.
    destruct (step ev s) as [s1|] eqn:Hstep; [| done]. simpl in Hrun.
    destruct (IH _ _ Hrun) as (evs' & Hplay & Hall).
    assert (pstep ev (live s) = Some (live s1) ∨
            ∃ g, ev = EvRun g ∧
                 pstep ev (live s) = Some (mkProcess s (Some g) false) ∧
                 pstep ev (mkProcess s (Some g) false) = Some (live s1))
      as [Hp | (g & -> & Hp1 & Hp2)].
    { destruct ev as [m | g | t e x]; unfold pstep, live;
        cbn [aborted deleting exec].
      - left. by rewrite Hstep.
      - destruct (goroutines s !! g) as [[req wg pc | req wg pc]|] eqn:Hg.
        + destruct pc; try (left; by rewrite Hstep).
          right. exists g. split; [done |]. split; [done |].
          rewrite decide_True by done. by rewrite Hstep.
        + left. by rewrite Hstep.
        + left. by rewrite Hstep.
      - left. by rewrite Hstep. }
    + exists (ev :: evs'). split; [by rewrite play_cons, Hp |].
      intros P HP. inversion HP; subst. constructor; [done | by apply Hall].
    + exists (EvRun g :: EvRun g :: evs'). split.
      * rewrite play_cons, Hp1. simpl. rewrite Hp2. done.
      * intros P HP. inversion HP; subst.
        constructor; [done |]. constructor; [done | by apply Hall].
Qed.

Lemma atCall_same g0 g (s : State X) :
  atCall g0 = atCall g →
  ownAnswer g0 s = ownAnswer g s ∧ isWait g0 = isWait g ∧ goWg g0 = goWg g.
Proof. destruct g0, g; simpl; intros [= -> ->]; done || discriminate. Qed.

Lemma answeredAt_same i g0 g r (s : State X) :
  atCall g0 = atCall g → answeredAt i g0 r s → answeredAt i g r s.
Proof.
  intros Heq (Hi & Hr & Hw).
  destruct (atCall_same g0 g s Heq) as (Ha & Hk & Hg).
  unfold answeredAt. rewrite <- Heq, <- Ha, <- Hk, <- Hg. done.
Qed.

Lemma Moves_chans k s g1 g1' s' :
  Moves k s g1 g1' s' → ∀ i, i ≠ k → chans s' !! i = chans s !! i.
Proof.
  intros Hm i Hne. destruct Hm; simpl; try done;
    try (by rewrite list_lookup_insert_ne).
  destruct (createServiceForFunction_frame (funcMeta req) s _ _
              (surjective_pairing _)) as (_ & _ & _ & ->). done.
Qed.

(** Where a response comes from, one step back: the goroutine held it or
    had sent it before the step, or the step is the goroutine's own call. *)
Lemma step_answers ev s s' i g r :
  Inv s → ReleasedOk (goroutines s) (waitGroups s) →
  step ev s = Some s' →
  goroutines s' !! i = Some g →
  pendingResp g = Some r ∨ chans s' !! i = Some [r] →
  (∃ g0, goroutines s !! i = Some g0 ∧ atCall g0 = atCall g ∧
         (pendingResp g0 = Some r ∨ chans s !! i = Some [r])) ∨
  (ev = EvRun i ∧ answeredAt i g r s).
Proof.
  intros Hinv Hrel Hstep Hi Hr.
  pose proof Hinv as (Hch & _ & _).
  destruct ev as [m | k | t e x].
  - left.
    assert (goroutines s' !! i = (goroutines s ++ [g]) !! i ∨
            i < length (goroutines s)) as Hshape.
    { destruct (decide (i < length (goroutines s))); [by right | left].
      rewrite Hi. symmetry.
      assert (length (goroutines s') = S (length (goroutines s))) as Hl.
      { simpl in Hstep. injection Hstep as <-.
        unfold serveCreateFuncServices. simpl.
        destruct (fsCreateWg s !! CacheKey m); simpl;
          rewrite length_app; simpl; lia. }
      pose proof (lookup_lt_Some _ _ _ Hi) as Hlt.
      assert (i = length (goroutines s)) as -> by lia.
      rewrite lookup_app_r by lia. by rewrite Nat.sub_diag. }
    assert (chans s' = chans s ++ [[]] ∧
            ∃ h, goroutines s' = goroutines s ++ [h] ∧ pendingResp h = None)
      as (Hcs & h & Hgs & Hh).
    { simpl in Hstep. injection Hstep as <-.
      unfold serveCreateFuncServices. simpl.
      destruct (fsCreateWg s !! CacheKey m); simpl; eauto. }
    destruct (decide (i < length (goroutines s))) as [Hlt | Hge].
    + exists g. rewrite Hgs, lookup_app_l in Hi by done.
      split; [done |]. split; [done |].
      destruct Hr as [Hr | Hr]; [by left | right].
      rewrite Hcs, lookup_app_l in Hr; [done |].
      by rewrite (chans_length _ _ Hch).
    + exfalso. pose proof (lookup_lt_Some _ _ _ Hi) as Hlt.
      rewrite Hgs, length_app in Hlt. simpl in Hlt.
      assert (i = length (goroutines s)) as -> by lia.
      rewrite Hgs, lookup_app_r, Nat.sub_diag in Hi by lia.
      injection Hi as <-. destruct Hr as [Hr | Hr]; [congruence |].
      rewrite Hcs, lookup_app_r in Hr by (rewrite (chans_length _ _ Hch); lia).
      rewrite (chans_length _ _ Hch), Nat.sub_diag in Hr. done.
  - destruct (step_run_Moves _ _ _ Hinv Hstep) as (g1 & g1' & Hk & Hm).
    destruct (Moves_same _ _ _ _ _ Hm) as (_ & _ & _ & Hgs).
    destruct (decide (i = k)) as [-> | Hne].
    + rewrite Hgs, list_lookup_insert_eq in Hi
        by (by eapply lookup_lt_Some).
      injection Hi as <-.
      pose proof (chans_sent _ _ Hch _ _ Hk) as (q & Hq & Hlen).
      destruct Hm; simpl in *.
      * destruct Hr as [[= <-] | Hr].
        -- right. split; [done |]. split; [done |]. split; [done |]. done.
        -- left. eexists. split; [done |]. split; [done |]. right.
           destruct (createServiceForFunction_frame (funcMeta req) s _ _
                       (surjective_pairing _)) as (_ & _ & _ & Hc).
           by rewrite <- Hc.
      * left. eexists. split; [done |]. split; [done |]. left.
        destruct Hr as [Hr | Hr]; [done |].
        rewrite list_lookup_insert_eq in Hr
          by (rewrite (chans_length _ _ Hch); by eapply lookup_lt_Some).
        simpl. congruence.
      * left. eexists. split; [done |]. split; [done |]. right.
        by destruct Hr.
      * left. eexists. split; [done |]. split; [done |]. right.
        by destruct Hr.
      * left. eexists. split; [done |]. split; [done |]. right.
        by destruct Hr.
      * destruct Hr as [[= <-] | Hr].
        -- right. split; [done |]. split; [done |]. split; [done |].
           intros _. by apply (Hrel _ _ Hk).
        -- left. eexists. split; [done |]. split; [done |]. by right.
      * left. eexists. split; [done |]. split; [done |]. left.
        destruct Hr as [Hr | Hr]; [done |].
        rewrite list_lookup_insert_eq in Hr
          by (rewrite (chans_length _ _ Hch); by eapply lookup_lt_Some).
        simpl. congruence.
    + left. exists g. rewrite Hgs, list_lookup_insert_ne in Hi by done.
      split; [done |]. split; [done |].
      by rewrite (Moves_chans _ _ _ _ _ Hm i Hne) in Hr.
  - left. simpl in Hstep. case_decide; [| done]. injection Hstep as <-.
    exists g. done.
Qed.

(** Every response a goroutine holds or has sent was made by that
    goroutine's own call, at one point of the run. *)
Lemma responses_from_own_call t e (x : X) evs : ∀ p,
  play evs (boot t e x) = Some p → aborted p = false →
  ∀ i g r,
    goroutines (exec p) !! i = Some g →
    pendingResp g = Some r ∨ chans (exec p) !! i = Some [r] →
    ∃ evs1 evs2 p1,
      evs = evs1 ++ EvRun i :: evs2 ∧
      play evs1 (boot t e x) = Some p1 ∧ aborted p1 = false ∧
      answeredAt i g r (exec p1).
Proof.
  induction evs as [|ev evs IH] using rev_ind; intros p Hplay Hlive i g r Hi Hr.
  - injection Hplay as <-. done.
  - rewrite play_app in Hplay.
    destruct (play evs (boot t e x)) as [p0|] eqn:Hplay0; [| done].
    simpl in Hplay.
    destruct (pstep ev p0) as [p'|] eqn:Hstep; [| done].
    injection Hplay as ->.
    destruct (pstep_cases _ _ _ Hstep Hlive)
      as (Hlive0 & [(He & _) | (Hs & _)]).
    + rewrite He in Hi, Hr.
      destruct (IH _ eq_refl Hlive0 _ _ _ Hi Hr)
        as (evs1 & evs2 & p1 & -> & Hp1 & Hl1 & Ha).
      exists evs1, (evs2 ++ [ev]), p1. rewrite <- app_assoc. done.
    + pose proof (play_reachable _ _ _ _ _ Hplay0 Hlive0) as Hreach.
      destruct (reachable_more _ Hreach) as (Hinv & _ & Hrel & _).
      destruct (step_answers _ _ _ _ _ _ Hinv Hrel Hs Hi Hr)
        as [(g0 & Hi0 & Heq & Hr0) | (-> & Ha)].
      * destruct (IH _ eq_refl Hlive0 _ _ _ Hi0 Hr0)
          as (evs1 & evs2 & p1 & -> & Hp1 & Hl1 & Ha).
        exists evs1, (evs2 ++ [ev]), p1. rewrite <- app_assoc.
        split; [done |]. split; [done |]. split; [done |].
        by eapply answeredAt_same.
      * exists evs, [], p0. done.
Qed.

Lemma live_eq p :
  deleting p = None → aborted p = false → p = live (exec p).
Proof. destruct p as [s d a]. simpl. by intros -> ->. Qed.

Lemma pstep_submit p m :
  aborted p = false → deleting p = None →
  pstep (EvSubmit m) p =
    (s' ← step (EvSubmit m) (exec p); Some (mkProcess s' None false)).
Proof. intros Ha Hd. unfold pstep. by rewrite Ha, Hd. Qed.

(** Outside the [delete] of line 97 a goroutine's step in the process is
    its step in the executor. *)
Lemma pstep_run_other p i g :
  aborted p = false → goroutines (exec p) !! i = Some g →
  (∀ req wg, g ≠ GoCreate req wg AtDelete) →
  pstep (EvRun i) p =
    (s' ← step (EvRun i) (exec p); Some (mkProcess s' (deleting p) false)).
Proof.
  intros Ha Hi Hne. unfold pstep. rewrite Ha, Hi.
  destruct g as [req wg pc | req wg pc]; [| done].
  destruct pc; try done. by destruct (Hne req wg).
Qed.

Lemma pstep_leave p i req wg :
  aborted p = false → deleting p = Some i →
  goroutines (exec p) !! i = Some (GoCreate req wg AtDelete) →
  pstep (EvRun i) p =
    (s' ← step (EvRun i) (exec p); Some (mkProcess s' None false)).
Proof.
  intros Ha Hd Hi. unfold pstep. rewrite Ha, Hi, Hd.
  by rewrite decide_True.
Qed.

Lemma pstep_enter p i req wg :
  aborted p = false → deleting p = None →
  goroutines (exec p) !! i = Some (GoCreate req wg AtDelete) →
  pstep (EvRun i) p = Some (mkProcess (exec p) (Some i) false).
Proof. intros Ha Hd Hi. unfold pstep. by rewrite Ha, Hi, Hd. Qed.

Lemma booted_deleting t e (x : X) evs p i :
  play evs (boot t e x) = Some p → aborted p = false →
  deleting p = Some i →
  ∃ req wg, goroutines (exec p) !! i = Some (GoCreate req wg AtDelete).
Proof.
  intros Hplay Hlive.
  apply (play_deleting _ _ _ Hplay Hlive); [apply Inv_MakeExecutor | done].
Qed.

Lemma runs_only sched :
  Forall (λ ev : Event X, ∃ i, ev = EvRun i) (EvRun <$> sched).
Proof. apply Forall_fmap, Forall_forall. intros i _. by exists i. Qed.

Lemma runs_only_inv (evs : list (Event X)) :
  Forall (λ ev, ∃ i, ev = EvRun i) evs → ∃ sched, evs = EvRun <$> sched.
Proof.
  induction 1 as [|ev evs [i ->] _ [sched ->]]; [by exists [] |].
  by exists (i :: sched).
Qed.

(** A process that is alive and has statements left can take a step that
    leaves it alive. *)
Lemma process_progress t e (x : X) evs p :
  play evs (boot t e x) = Some p → aborted p = false →
  0 < work (exec p) →
  ∃ i p', pstep (EvRun i) p = Some p' ∧ aborted p' = false.
Proof.
  intros Hplay Hlive Hpos.
  pose proof (reachable_Inv _ (play_reachable _ _ _ _ _ Hplay Hlive)) as Hinv.
  destruct (deleting p) as [i|] eqn:Hd.
  - destruct (booted_deleting _ _ _ _ _ _ Hplay Hlive Hd) as (req & wg & Hi).
    exists i. rewrite (pstep_leave _ _ _ _ Hlive Hd Hi).
    rewrite (step_delete _ _ _ _ Hi). simpl. eauto.
  - destruct (work_pos_unexited _ Hpos) as (i & g & Hi & Hex).
    destruct (progress _ _ _ Hinv Hi Hex) as (j & s' & Hs).
    exists j. pose proof Hs as Hs0. simpl in Hs0.
    destruct (goroutines (exec p) !! j) as [h|] eqn:Hj; [| done].
    assert ((∃ req wg, h = GoCreate req wg AtDelete) ∨
            ∀ req wg, h ≠ GoCreate req wg AtDelete) as [(req & wg & ->) | Hno].
    { destruct h as [req wg pc | req wg pc]; [| by right].
      destruct pc; try (by right). left. eauto. }
    + rewrite (pstep_enter _ _ _ _ Hlive Hd Hj). eauto.
    + rewrite (pstep_run_other _ _ _ Hlive Hj Hno), Hs. simpl. eauto.
Qed.

(** From a process that is alive the goroutines can be run to their end
    with the process alive. *)
Lemma process_drain t e (x : X) evs p :
  play evs (boot t e x) = Some p → aborted p = false →
  ∃ sched p',
    play (EvRun <$> sched) p = Some p' ∧ aborted p' = false ∧
    work (exec p') = 0.
Proof.
  intros Hplay Hlive.
  pose proof (reachable_Inv _ (play_reachable _ _ _ _ _ Hplay Hlive)) as Hinv.
  assert (∀ s, Inv s →
            ∃ sched s', play (EvRun <$> sched) (live s) = Some (live s') ∧
                        work s' = 0) as Hgen.
  { intros s Hs.
    destruct (drain (work s) s Hs eq_refl)
      as (sched0 & s' & _ & Hrun & _ & Hw & _).
    destruct (play_of_run _ _ _ Hrun) as (evs' & Hp & Hall).
    destruct (runs_only_inv evs' (Hall _ (runs_only sched0)))
      as (sched & ->).
    eauto. }
  destruct (deleting p) as [i|] eqn:Hd.
  - destruct (booted_deleting _ _ _ _ _ _ Hplay Hlive Hd) as (req & wg & Hi).
    pose proof (step_delete _ _ _ _ Hi) as Hs.
    destruct (Hgen _ (Inv_step _ _ _ Hs Hinv)) as (sched & s' & Hp & Hw).
    exists (i :: sched), (live s'). rewrite fmap_cons, play_cons.
    rewrite (pstep_leave _ _ _ _ Hlive Hd Hi), Hs. simpl.
    unfold live in Hp. by rewrite Hp.
  - destruct (Hgen _ Hinv) as (sched & s' & Hp & Hw).
    exists sched, (live s'). rewrite (live_eq p Hd Hlive). done.
Qed.

(** Once the runtime has thrown nothing happens any more. *)
Lemma aborted_final evs p p' :
  aborted p = true → play evs p = Some p' → evs = [] ∧ p' = p.
Proof.
  intros Ha. destruct evs as [|ev evs]; [by intros [= <-] |].
  rewrite play_cons. unfold pstep. by rewrite Ha.
Qed.





End ProcessRuns.

(** * Runs on the small cluster *)

Section Runs.
Import Demo.

Lemma after_reachable n evs :
  is_Some (run evs (start n)) → reachable (after n evs).
Proof.
  intros [s Hs]. exists 0%Z, ∅, (cluster_with n), evs.
  unfold after. fold (start n). by rewrite Hs.
Qed.

(** The first resolution of [hello] on a fresh executor. *)
Lemma getFunctionEnv_one_fetch_per_window_witness :
  ∃ s1,
    getFunctionEnv hello (start 2) = (Ok nodeEnv, s1) ∧
    calls s1 = calls (start 2) ++
      [CallFunctionsGet "default" "hello";
       CallEnvironmentsGet "default" "node"] ∧
    entries (functionEnv s1) !! key hello = Some (nodeEnv, 0%Z) ∧
    ∀ ws,
      Forall (λ w, (w.1 < 0 + 10 * Second)%Z) ws →
      ∃ s2,
        resolveRepeatedly hello ws s1 =
          (replicate (length ws) (Ok nodeEnv), s2) ∧
        calls s2 = calls s1 ∧ functionEnv s2 = functionEnv s1.
Proof.
  refine (getFunctionEnv_one_fetch_per_window hello (start 2)
           "not found" helloFn nodeEnv _ _ _); vm_compute; reflexivity.
Defined.

(** Resolution of [hello] on a cluster that does not know it. *)
Lemma getFunctionEnv_failure_not_cached_witness :
  ∃ s1,
    getFunctionEnv hello (MakeExecutor 0 ∅ empty_cluster) =
      (Err "function not found"%string, s1) ∧
    functionEnv s1 = functionEnv (MakeExecutor 0 ∅ empty_cluster) ∧
    ∀ t x, (0 ≤ t)%Z →
      ∃ r s3 rest,
        getFunctionEnv hello (set_world t (environ s1) x s1) = (r, s3) ∧
        calls s3 = calls s1 ++ CallFunctionsGet "default" "hello" :: rest.
Proof.
  apply (getFunctionEnv_failure_not_cached hello
           (MakeExecutor 0 ∅ empty_cluster) "not found" "function not found").
  - vm_compute; reflexivity.
  - left. vm_compute; reflexivity.
Defined.

(** A process started with [EXECUTOR_BACKEND=DEPLOY]. *)
Lemma deploy_backend_returns_nil_nil_witness :
  let s := Setenv "EXECUTOR_BACKEND" "DEPLOY" (start 2) in
  dispatchBackend hello nodeEnv s = (Ok None, s) ∧
  createServiceForFunction hello s = (Ok None, (getFunctionEnv hello s).2) ∧
  response id (createServiceForFunction hello s).1 = mkResponse None None.
Proof.
  apply (deploy_backend_returns_nil_nil hello nodeEnv
           (Setenv "EXECUTOR_BACKEND" "DEPLOY" (start 2))).
  - vm_compute; reflexivity.
  - vm_compute; reflexivity.
Defined.

(** The creation goroutine for [hello] stands before its [delete]. *)
Lemma marker_removed_before_signal_witness :
  ∃ s1,
    step (EvRun 0) before_delete = Some s1 ∧
    fsCreateWg s1 = delete (key hello) (fsCreateWg before_delete) ∧
    waitGroups s1 = waitGroups before_delete ∧
    waitGroups s1 !! 0 = Some 1 ∧
    goroutines s1 !! 0 = Some (GoCreate (mkRequest hello 0) 0 AtDone) ∧
    (∃ r, chans before_delete !! 0 = Some [r]) ∧
    (∃ s2,
       step (EvSubmit hello) s1 = Some s2 ∧
       goroutines s2 =
         goroutines s1 ++
           [GoCreate (mkRequest hello (length (chans s1)))
              (length (waitGroups s1)) AtCreate] ∧
       fsCreateWg s2 !! key hello = Some (length (waitGroups s1)) ∧
       waitGroups s2 !! 0 = Some 1) ∧
    (∃ s3,
       step (EvRun 0) s1 = Some s3 ∧
       waitGroups s3 = <[0 := 0]> (waitGroups s1) ∧
       fsCreateWg s3 = fsCreateWg s1).
Proof.
  refine (marker_removed_before_signal before_delete 0 (mkRequest hello 0) 0
            _ _).
  - apply after_reachable. vm_compute. eexists; reflexivity.
  - vm_compute; reflexivity.
Defined.


(** The second of two requests for [hello] waits for the first. *)
Lemma waiter_released_with_registry_answer_witness :
  step (EvRun 1) two_requests = None ∧
  ∃ s',
    run (EvRun <$> [0; 0; 0; 0; 1; 1; 1]) two_requests = Some s' ∧
    waitGroups s' !! 0 = Some 0 ∧
    chans s' !! 0 =
      Some [response id (createServiceForFunction hello two_requests).1] ∧
    chans s' !! 1 =
      Some [registryAnswer
              (ext (createServiceForFunction hello two_requests).2) hello] ∧
    registryAnswer (ext (createServiceForFunction hello two_requests).2)
      hello ≠ mkResponse None None ∧
    (∀ e, (createServiceForFunction hello two_requests).1 = Err e →
       chans s' !! 0 = Some [mkResponse None (Some e)]).
Proof.
  refine (waiter_released_with_registry_answer two_requests 0 1
            (mkRequest hello 0) (mkRequest hello 1) 0 _ _ _).
  - apply after_reachable. vm_compute. eexists; reflexivity.
  - vm_compute; reflexivity.
  - vm_compute; reflexivity.
Defined.



(** After the [delete] and before the [Done] of the creation goroutine the
    key has no marker while the counter is still 1, and a request received
    then starts a second creation with a WaitGroup of its own. *)
Lemma request_admitted_between_delete_and_done :
  ∃ s s',
    run [EvSubmit hello; EvRun 0; EvRun 0; EvRun 0] (start 2) = Some s ∧
    goroutines s !! 0 = Some (GoCreate (mkRequest hello 0) 0 AtDone) ∧
    fsCreateWg s !! key hello = None ∧
    waitGroups s !! 0 = Some 1 ∧
    step (EvSubmit hello) s = Some s' ∧
    goroutines s' !! 1 = Some (GoCreate (mkRequest hello 1) 1 AtCreate) ∧
    fsCreateWg s' !! key hello = Some 1 ∧
    waitGroups s' = [1; 1].
Proof.
  eexists. eexists. split; [vm_compute; reflexivity |].
  split; [vm_compute; reflexivity |]. split; [vm_compute; reflexivity |].
  split; [vm_compute; reflexivity |]. split; [vm_compute; reflexivity |].
  repeat split; vm_compute; reflexivity.
Qed.

(** On a cluster with one warm instance: a first creation registers its
    service and is answered; a second creation for the same key fails for
    want of a warm instance; the request that joined the second one is
    answered with the service the first had registered, and a nil error. *)
Lemma waiter_of_failed_creation_gets_service :
  ∃ s,
    run [EvSubmit hello; EvRun 0; EvRun 0; EvRun 0; EvRun 0;
         EvSubmit hello; EvSubmit hello;
         EvRun 1; EvRun 1; EvRun 1; EvRun 1;
         EvRun 2; EvRun 2; EvRun 2] (start 1) = Some s ∧
    goroutines s !! 1 = Some (GoCreate (mkRequest hello 1) 1 CreateExited) ∧
    goroutines s !! 2 = Some (GoWait (mkRequest hello 2) 1 WaitExited) ∧
    chans s !! 1 =
      Some [mkResponse None (Some "no warm instance left"%string)] ∧
    chans s !! 2 = Some [mkResponse (Some svc0) None].
Proof.
  eexists. split; [vm_compute; reflexivity |].
  repeat split; vm_compute; reflexivity.
Qed.

(** Two calls in one process: the first specializes through the pool; the
    variable is then set to [DEPLOY] and the second returns nil and nil. *)
Lemma strategy_changes_between_calls :
  ∃ s1,
    createServiceForFunction hello (start 2) = (Ok (Some svc0), s1) ∧
    In (CallGetPool nodeEnv) (calls s1) ∧
    createServiceForFunction hello
      (Setenv "EXECUTOR_BACKEND" "DEPLOY" s1) =
      (Ok None, Setenv "EXECUTOR_BACKEND" "DEPLOY" s1).
Proof.
  eexists. split; [vm_compute; reflexivity |].
  split; [vm_compute; tauto |]. vm_compute; reflexivity.
Qed.


(** Five requests for [hello] received before the first is answered: the
    pool manager specializes once, the other four look the service up in
    the function-service cache, and each channel holds that one service. *)
Lemma five_requests_one_specialization :
  ∃ s,
    run ([EvSubmit hello; EvSubmit hello; EvSubmit hello; EvSubmit hello;
          EvSubmit hello] ++
         (EvRun <$> [0; 0; 0; 0; 1; 1; 1; 2; 2; 2; 3; 3; 3; 4; 4; 4]))
      (start 5) = Some s ∧
    calls s =
      [CallFunctionsGet "default" "hello";
       CallEnvironmentsGet "default" "node";
       CallGetPool nodeEnv; CallGetFuncSvc (mkPool nodeEnv) hello;
       CallGetByFunction hello; CallGetByFunction hello;
       CallGetByFunction hello; CallGetByFunction hello] ∧
    chans s = replicate 5 [mkResponse (Some svc0) None] ∧
    fsCreateWg s = ∅.
Proof.
  eexists. split; [vm_compute; reflexivity |].
  repeat split; vm_compute; reflexivity.
Qed.

(** A misspelt or unset backend runs the pool arm. *)
Lemma misspelt_backend_uses_pool :
  dispatchBackend hello nodeEnv (Setenv "EXECUTOR_BACKEND" "deploy" (start 1))
    = poolBackend hello nodeEnv (Setenv "EXECUTOR_BACKEND" "deploy" (start 1))
  ∧ (dispatchBackend hello nodeEnv (start 1)).1 = Ok (Some svc0).
Proof. split; vm_compute; reflexivity. Qed.

(** Reachability of a state of the small cluster, by running its schedule. *)
Ltac reached := apply after_reachable; vm_compute; eexists; reflexivity.

(** Resolution of [hello] on a fresh executor. *)
Lemma getFunctionEnv_touches_only_its_entry_witness :
  ext (getFunctionEnv hello (start 2)).2 = ext (start 2) ∧
  now (getFunctionEnv hello (start 2)).2 = now (start 2) ∧
  environ (getFunctionEnv hello (start 2)).2 = environ (start 2) ∧
  sameBookkeeping (start 2) (getFunctionEnv hello (start 2)).2 ∧
  ctimeExpiry (functionEnv (getFunctionEnv hello (start 2)).2) =
    ctimeExpiry (functionEnv (start 2)) ∧
  (∀ k, k ≠ key hello →
     entries (functionEnv (getFunctionEnv hello (start 2)).2) !! k =
     entries (functionEnv (start 2)) !! k) ∧
  ∃ l, calls (getFunctionEnv hello (start 2)).2 = calls (start 2) ++ l ∧
       length l ≤ 2 ∧ Forall (λ c, isMetadataCall c = true) l.
Proof.
  refine (getFunctionEnv_touches_only_its_entry hello (start 2)
            (getFunctionEnv hello (start 2)).1 _ _).
  by destruct (getFunctionEnv hello (start 2)).
Defined.

(** [hello] is unknown to the cluster and the variable reads [DEPLOY]. *)
Lemma resolution_failure_aborts_creation_witness :
  let s := MakeExecutor 0 {[ "EXECUTOR_BACKEND"%string := "DEPLOY"%string ]}
             empty_cluster in
  let s1 := (getFunctionEnv hello s).2 in
  createServiceForFunction hello s = (Err "function not found"%string, s1) ∧
  response id (createServiceForFunction hello s).1 =
    mkResponse None (Some "function not found"%string) ∧
  ext s1 = ext s ∧ functionEnv s1 = functionEnv s ∧
  ∃ l, calls s1 = calls s ++ l ∧ Forall (λ c, isMetadataCall c = true) l.
Proof.
  refine (resolution_failure_aborts_creation hello
            (MakeExecutor 0
               {[ "EXECUTOR_BACKEND"%string := "DEPLOY"%string ]}
               empty_cluster)
            "function not found" _ _).
  vm_compute; reflexivity.
Defined.

(** A cluster without a warm instance: the error is [GetFuncSvc]'s. *)
Lemma createServiceForFunction_error_provenance_witness :
  Functions_Get (ext (start 0)) "default" "hello"
    = inr "no warm instance left"%string ∨
  (∃ f, Functions_Get (ext (start 0)) "default" "hello" = inl f ∧
        Environments_Get (ext (start 0))
          (ref_Namespace (fn_Spec_Environment f))
          (ref_Name (fn_Spec_Environment f))
          = inr "no warm instance left"%string) ∨
  (∃ env s1, getFunctionEnv hello (start 0) = (Ok env, s1) ∧
             (gpm_GetPool (ext (start 0)) env).1
               = inr "no warm instance left"%string) ∨
  (∃ env s1 pool x1,
     getFunctionEnv hello (start 0) = (Ok env, s1) ∧
     gpm_GetPool (ext (start 0)) env = (inl pool, x1) ∧
     (pool_GetFuncSvc x1 pool hello).1 = inr "no warm instance left"%string).
Proof.
  refine (createServiceForFunction_error_provenance hello (start 0)
            "no warm instance left"
            (createServiceForFunction hello (start 0)).2 _).
  vm_compute; reflexivity.
Defined.

(** A cluster with warm instances: the service is the pool manager's. *)
Lemma createServiceForFunction_service_provenance_witness :
  ∃ env s1 pool x1,
    getFunctionEnv hello (start 2) = (Ok env, s1) ∧
    Getenv "EXECUTOR_BACKEND" (start 2) ≠ "DEPLOY"%string ∧
    gpm_GetPool (ext (start 2)) env = (inl pool, x1) ∧
    pool_GetFuncSvc x1 pool hello =
      (inl svc0, ext (createServiceForFunction hello (start 2)).2) ∧
    calls (createServiceForFunction hello (start 2)).2 =
      calls s1 ++ [CallGetPool env; CallGetFuncSvc pool hello].
Proof.
  refine (createServiceForFunction_service_provenance hello (start 2) svc0
            (createServiceForFunction hello (start 2)).2 _).
  vm_compute; reflexivity.
Defined.

(** The backend fails for want of a warm instance; the environment stays
    cached. *)
Lemma backend_outcome_keeps_environment_cached_witness :
  let s' := (createServiceForFunction hello (start 0)).2 in
  functionEnv s' = functionEnv (getFunctionEnv hello (start 0)).2 ∧
  ∃ ct,
    entries (functionEnv s') !! key hello = Some (nodeEnv, ct) ∧
    ∀ t e x, (t < ct + ctimeExpiry (functionEnv s'))%Z →
      getFunctionEnv hello (set_world t e x s')
        = (Ok nodeEnv, set_world t e x s').
Proof.
  refine (backend_outcome_keeps_environment_cached hello (start 0) nodeEnv
            (getFunctionEnv hello (start 0)).2
            (createServiceForFunction hello (start 0)).1
            (createServiceForFunction hello (start 0)).2 _ _);
    vm_compute; reflexivity.
Defined.

(** A fetch at time 0, a hit after five seconds, a miss after eleven. *)
Lemma expired_entry_is_fetched_again_witness :
  ∃ s1 s2 r s3 rest,
    getFunctionEnv hello (start 2) = (Ok nodeEnv, s1) ∧
    resolveRepeatedly hello [((5 * Second)%Z, empty_cluster)] s1
      = ([Ok nodeEnv], s2) ∧
    entries (functionEnv s2) !! key hello = Some (nodeEnv, 0%Z) ∧
    getFunctionEnv hello
      (set_world (11 * Second) (environ s2) (cluster_with 2) s2) = (r, s3) ∧
    calls s3 = calls s2 ++ CallFunctionsGet "default" "hello" :: rest.
Proof.
  refine (expired_entry_is_fetched_again hello (start 2) "not found" helloFn
            nodeEnv [((5 * Second)%Z, empty_cluster)] (11 * Second)
            (cluster_with 2) _ _ _ _ _).
  - vm_compute; reflexivity.
  - vm_compute; reflexivity.
  - vm_compute; reflexivity.
  - repeat constructor.
  - vm_compute; reflexivity.
Defined.


(** The creation goroutine for [hello] before its [delete]. *)
Lemma creation_goroutine_never_blocks_witness :
  is_Some (step (EvRun 0) before_delete) ∧
  waitGroups before_delete !! 0 = Some 1 ∧
  ∀ w n, waitGroups before_delete !! w = Some n → n = 0 ∨ n = 1.
Proof.
  refine (creation_goroutine_never_blocks before_delete 0
            (mkRequest hello 0) 0 AtDelete _ _ _).
  - reached.
  - vm_compute; reflexivity.
  - discriminate.
Defined.

(** The second request for [hello] waits for the first. *)
Lemma wait_passes_exactly_after_done_witness :
  is_Some (step (EvRun 1) two_requests) ↔
  ∃ i creq, goroutines two_requests !! i = Some (GoCreate creq 0 CreateExited).
Proof.
  refine (wait_passes_exactly_after_done two_requests 1
            (mkRequest hello 1) 0 _ _).
  - reached.
  - vm_compute; reflexivity.
Defined.

(** The second request for [hello] joined the first. *)
Lemma waiter_joined_earlier_creation_of_its_key_witness :
  ∃ i creq cpc,
    i < 1 ∧ goroutines two_requests !! i = Some (GoCreate creq 0 cpc) ∧
    CacheKey (funcMeta creq) = CacheKey hello.
Proof.
  refine (waiter_joined_earlier_creation_of_its_key two_requests 1
            (mkRequest hello 1) 0 AtWait _ _).
  - reached.
  - vm_compute; reflexivity.
Defined.

(** The first waiting goroutine is past [wg.Wait()]. *)
Lemma waiter_answered_after_its_creation_witness :
  ∃ i creq r,
    i < 1 ∧
    goroutines waiter_past_wait !! i = Some (GoCreate creq 0 CreateExited) ∧
    chans waiter_past_wait !! respChan creq = Some [r].
Proof.
  refine (waiter_answered_after_its_creation waiter_past_wait 1
            (mkRequest hello 1) 0 AtGetByFunction _ _ _).
  - reached.
  - vm_compute; reflexivity.
  - discriminate.
Defined.

(** The creation goroutine sends on channel 0. *)
Lemma channels_written_once_by_owner_witness :
  chans (after 2 [EvSubmit hello; EvRun 0; EvRun 0]) !! 0 = Some [] ∨
  ∃ g r, EvRun (X:=Cluster) 0 = EvRun 0 ∧
         goroutines before_send !! 0 = Some g ∧
         respChan (goReq g) = 0 ∧ pendingResp g = Some r ∧
         @nil createFuncServiceResponse = [] ∧
         chans (after 2 [EvSubmit hello; EvRun 0; EvRun 0]) !! 0 = Some [r].
Proof.
  refine (channels_written_once_by_owner (EvRun 0) before_send
            (after 2 [EvSubmit hello; EvRun 0; EvRun 0]) 0 [] _ _ _).
  - reached.
  - vm_compute; reflexivity.
  - vm_compute; reflexivity.
Defined.

(** Two requests for [hello], both answered. *)
Lemma quiescent_state_is_clean_witness :
  fsCreateWg all_answered = ∅ ∧ Forall (λ n, n = 0) (waitGroups all_answered).
Proof.
  refine (quiescent_state_is_clean all_answered _ _).
  - reached.
  - vm_compute; reflexivity.
Defined.

(** The [delete] of the creation goroutine for [hello]. *)
Lemma marker_changes_only_for_own_key_witness :
  (∃ m, EvRun (X:=Cluster) 0 = EvSubmit m ∧ CacheKey m = key hello ∧
        fsCreateWg before_delete !! key hello = None ∧
        fsCreateWg (after 2 [EvSubmit hello; EvRun 0; EvRun 0; EvRun 0])
          !! key hello = Some (length (waitGroups before_delete))) ∨
  (∃ i req wg,
     EvRun (X:=Cluster) 0 = EvRun i ∧
     goroutines before_delete !! i = Some (GoCreate req wg AtDelete) ∧
     CacheKey (funcMeta req) = key hello ∧
     fsCreateWg before_delete !! key hello = Some wg ∧
     fsCreateWg (after 2 [EvSubmit hello; EvRun 0; EvRun 0; EvRun 0])
       !! key hello = None).
Proof.
  refine (marker_changes_only_for_own_key (EvRun 0) before_delete
            (after 2 [EvSubmit hello; EvRun 0; EvRun 0; EvRun 0])
            (key hello) _ _ _).
  - reached.
  - vm_compute; reflexivity.
  - vm_compute. discriminate.
Defined.


(** A third request arrives; the creation goroutine can still step. *)
Lemma enabled_goroutine_stays_enabled_witness :
  is_Some (step (EvRun 0)
             (after 2 [EvSubmit hello; EvSubmit hello; EvSubmit hello])).
Proof.
  refine (enabled_goroutine_stays_enabled (EvSubmit hello) two_requests
            (after 2 [EvSubmit hello; EvSubmit hello; EvSubmit hello]) 0
            _ _ _ _).
  - reached.
  - vm_compute; reflexivity.
  - discriminate.
  - vm_compute. eexists; reflexivity.
Defined.

(** One request for [hello] is in flight: its marker holds WaitGroup 0
    with counter 1. *)
Lemma markers_hold_distinct_waitgroups_witness :
  CacheKey hello = CacheKey hello ∧ waitGroups one_request !! 0 = Some 1.
Proof.
  refine (markers_hold_distinct_waitgroups one_request (CacheKey hello)
            (CacheKey hello) 0 _ _ _).
  - reached.
  - vm_compute; reflexivity.
  - vm_compute; reflexivity.
Defined.

(** Three requests and four goroutine steps: three goroutines, three
    channels, one WaitGroup. *)
Lemma one_goroutine_per_request_witness :
  length (goroutines waiters_released) = 3 ∧
  length (chans waiters_released) = 3 ∧
  length (waitGroups waiters_released) =
    countIf isCreate (goroutines waiters_released).
Proof.
  refine (one_goroutine_per_request 0 ∅ (cluster_with 2)
            [EvSubmit hello; EvSubmit hello; EvSubmit hello;
             EvRun 0; EvRun 0; EvRun 0; EvRun 0]
            waiters_released _).
  vm_compute; reflexivity.
Defined.



(** Two calls in one process: the first with the variable unset, the
    second after it was set to [DEPLOY]. *)
Lemma strategy_follows_environment_at_call_witness :
  Getenv "EXECUTOR_BACKEND" before_second_call
    = default ""%string (deploy_environ !! "EXECUTOR_BACKEND"%string) ∧
  (asksPool hello (start 2) = false ↔
   Getenv "EXECUTOR_BACKEND" (start 2) = "DEPLOY"%string) ∧
  (asksPool hello before_second_call = false ↔
   Getenv "EXECUTOR_BACKEND" before_second_call = "DEPLOY"%string) ∧
  (asksPool hello (start 2) = false →
   createServiceForFunction hello (start 2)
     = (Ok None, (getFunctionEnv hello (start 2)).2)) ∧
  (asksPool hello before_second_call = false →
   createServiceForFunction hello before_second_call
     = (Ok None, (getFunctionEnv hello before_second_call).2)) ∧
  (asksPool hello (start 2) = true →
   createServiceForFunction hello (start 2)
     = poolBackend hello nodeEnv (getFunctionEnv hello (start 2)).2 ∧
   ∃ rest, calls (createServiceForFunction hello (start 2)).2
           = calls (getFunctionEnv hello (start 2)).2
               ++ CallGetPool nodeEnv :: rest) ∧
  (asksPool hello before_second_call = true →
   createServiceForFunction hello before_second_call
     = poolBackend hello nodeEnv
         (getFunctionEnv hello before_second_call).2 ∧
   ∃ rest, calls (createServiceForFunction hello before_second_call).2
           = calls (getFunctionEnv hello before_second_call).2
               ++ CallGetPool nodeEnv :: rest) ∧
  (Getenv "EXECUTOR_BACKEND" before_second_call
     = Getenv "EXECUTOR_BACKEND" (start 2) →
   asksPool hello before_second_call = asksPool hello (start 2)) ∧
  ((Getenv "EXECUTOR_BACKEND" (start 2) = "DEPLOY"%string ↔
    Getenv "EXECUTOR_BACKEND" before_second_call ≠ "DEPLOY"%string) →
   asksPool hello before_second_call = negb (asksPool hello (start 2))).
Proof.
  refine (strategy_follows_environment_at_call hello hello (start 2)
            before_second_call 1 deploy_environ (cluster_with 2)
            nodeEnv (getFunctionEnv hello (start 2)).2
            nodeEnv (getFunctionEnv hello before_second_call).2 _ _ _).
  - vm_compute; reflexivity.
  - reflexivity.
  - vm_compute; reflexivity.
Defined.

(** Two requests answered: one call to each of the creation's
    collaborators, one lookup for the one waiting goroutine. *)
Lemma collaborator_calls_bounded_by_goroutines_witness :
  countIf pastLookup (goroutines all_answered)
    ≤ countIf isGetByFunction (calls all_answered) ∧
  countIf isGetByFunction (calls all_answered)
    ≤ countIf pastWait (goroutines all_answered) ∧
  countIf isGetPool (calls all_answered)
    ≤ countIf isCreate (goroutines all_answered) ∧
  countIf isFunctionsGet (calls all_answered)
    ≤ countIf isCreate (goroutines all_answered) ∧
  countIf isGetFuncSvc (calls all_answered)
    ≤ countIf isGetPool (calls all_answered) ∧
  countIf isEnvironmentsGet (calls all_answered)
    ≤ countIf isFunctionsGet (calls all_answered) ∧
  countIf isCreate (goroutines all_answered)
    + countIf isWait (goroutines all_answered)
    = length (goroutines all_answered).
Proof.
  refine (collaborator_calls_bounded_by_goroutines all_answered _).
  reached.
Defined.


End Runs.
